(** * The Google connector of dex: login, identity assembly and group resolution

    A shallow embedding of [connector/google/google.go].  The collaborators the
    connector talks to (the OAuth2 token endpoint, the OIDC verifier and the
    admin directory API) are oracles: pure functions stored in the connector
    value.  Every oracle invocation is appended to a call log, so that
    statements of the form "no call is made" are statements about that log.

    Conventions.
    - A Go pair [(T, error)] returned by a function of the connector is a Rocq
      pair [(T * option error)], [None] being [nil].
    - A Go pair of a pointer and an error produced by a collaborator, whose
      pointer is [nil] exactly when the error is set, is a [result].
    - A loop that may run for ever takes a fuel argument; running out of fuel
      is the outcome [Timeout] (or [None]), reported together with the state
      reached so far. *)

From stdpp Require Import gmap strings list fin_maps fin_sets relations.
From Stdlib Require Import Ascii String ZArith.

Open Scope string_scope.
Open Scope list_scope.

#[local] Set Warnings "-clear-no-such-hyp".

(** ** Constants (lines 31-34) *)

Definition issuerURL : string := "https://accounts.google.com".
Definition wildcardDomainToAdminEmail : string := "*".

(** ** Errors

    One constructor per place where the source builds an error value; an
    error wrapped with [%v] keeps its cause as an argument.  [ExternalError]
    stands for the errors produced by the collaborators. *)

Inductive error : Type :=
| ExternalError (msg : string)
| OAuth2Error (err errorDescription : string)
    (* &oauth2Error{...}, line 199 *)
| ErrCallbackMismatch (callbackURL configured : string)
    (* "expected callback URL %q did not match the URL in the config %q" *)
| ErrGetToken (cause : error)
    (* "google: failed to get token: %v" *)
| ErrNoIDToken
    (* "google: no id_token in token response" *)
| ErrVerifyIDToken (cause : error)
    (* "google: failed to verify ID Token: %v" *)
| ErrDecodeClaims (cause : error)
    (* "oidc: failed to decode claims: %v" *)
| ErrUnexpectedHD (hd : string)
    (* "oidc: unexpected hd claim %v" *)
| ErrRetrieveGroups (cause : error)
    (* "google: could not retrieve groups: %v" *)
| ErrNotInRequiredGroups (username : string)
    (* "google: user %q is not in any of the required groups" *)
| ErrListGroups (cause : error)
    (* "could not list groups: %v" *)
| ErrListTransitiveGroups (cause : error)
    (* "could not list transitive groups: %v" *)
| ErrNoAdminService (domain : string).
    (* "unable to find super admin email, domainToAdminEmail for domain: %s
       not set, %s is also empty" *)

Inductive result (A : Type) : Type :=
| Ok (a : A)
| Err (e : error).
Arguments Ok {A} a.
Arguments Err {A} e.

(** The method [Error] of [oauth2Error] (lines 189-194). *)
Definition oauth2Error_Error (err errorDescription : string) : string :=
  if String.eqb errorDescription "" then err
  else String.append err (String.append ": " errorDescription).

(** ** Data of the collaborating packages *)

Module admin.
(** [admin.Group]: only the [Email] field is read. *)
Record Group : Type := { Email : string }.

(** [admin.Groups], one page of a listing.  The field the source calls
    [Groups] is [Items] here, the record already having that name. *)
Record Groups : Type := { Items : list Group; NextPageToken : string }.

(** [adminSrv.Groups.List().UserKey(k).PageToken(t).Do()] as a function of
    [k] and [t]. *)
Definition Service : Type := string → string → result Groups.
End admin.

Module oauth2.
(** The dynamic value returned by [Token.Extra]. *)
Inductive any : Type :=
| Nil
| Str (s : string)
| Other.

Record Token : Type := {
  RefreshToken : string;
  Expiry : Z;
  Extra : string → any
}.

Inductive AuthCodeOption : Type :=
| SetAuthURLParam (key value : string)
| AccessTypeOffline.

Record Config : Type := {
  ClientID : string;
  ClientSecret : string;
  Scopes : list string;
  RedirectURL : string;
  (** [Exchange(ctx, code)] *)
  Exchange : string → result Token;
  (** [TokenSource(ctx, t).Token()] *)
  TokenSource : Token → result Token;
  (** [AuthCodeURL(state, opts...)] *)
  AuthCodeURL : string → list AuthCodeOption → string
}.
End oauth2.

Module oidc.
(** The anonymous struct [claims] of [createIdentity] (lines 232-237). *)
Record claims : Type := {
  Username : string;
  Email : string;
  EmailVerified : bool;
  HostedDomain : string
}.

(** A verified ID token: its subject and what [Claims(&claims)] decodes. *)
Record IDToken : Type := {
  Subject : string;
  Claims : result claims
}.
End oidc.

Module connector.
Record Scopes : Type := { OfflineAccess : bool; Groups : bool }.

Record Identity : Type := {
  UserID : string;
  Username : string;
  Email : string;
  EmailVerified : bool;
  ConnectorData : list Byte.byte;
  Groups' : list string
}.

(** The zero value of [Identity]. *)
Definition zero : Identity :=
  {| UserID := ""; Username := ""; Email := ""; EmailVerified := false;
     ConnectorData := []; Groups' := [] |}.
End connector.

(** The method [Get] of [url.Values]: the first value of the key, or the
    empty string. *)
Definition Get (q : gmap string (list string)) (key : string) : string :=
  match q !! key with
  | Some (v :: _) => v
  | _ => ""
  end.

(** The part of [http.Request] that [HandleCallback] reads: [r.URL.Query()]. *)
Record Request : Type := { Query : gmap string (list string) }.

(** ** The connector (lines 145-157) *)

Record googleConnector : Type := {
  redirectURI : string;
  oauth2Config : oauth2.Config;
  (** [verifier.Verify(ctx, rawIDToken)] *)
  verifier : string → result oidc.IDToken;
  hostedDomains : list string;
  groups : list string;
  serviceAccountFilePath : string;
  domainToAdminEmail : gmap string string;
  fetchTransitiveGroupMembership : bool;
  adminSrv : gmap string admin.Service
}.

(** ** The call log *)

Inductive Call : Type :=
| CallExchange (code : string)
| CallTokenSource (refreshToken : string)
| CallVerify (rawIDToken : string)
| CallGroupsList (userKey pageToken : string) (failure : option error).

(** The state threaded through group resolution: the map [checkedGroups]
    shared by all recursive calls, and the log of calls, most recent first. *)
Record World : Type := {
  checkedGroups : gset string;
  calls : list Call
}.

Definition mark (g : string) (w : World) : World :=
  {| checkedGroups := {[g]} ∪ checkedGroups w; calls := calls w |}.

Definition record (c : Call) (w : World) : World :=
  {| checkedGroups := checkedGroups w; calls := c :: calls w |}.

(** ** Routing (lines 332-357) *)

(** [strings.LastIndex(s, "@")] for a one-byte separator: the index of its
    last occurrence, or -1. *)
Fixpoint LastIndexByte (s : string) (sep : ascii) : Z :=
  match s with
  | EmptyString => (-1)%Z
  | String a s' =>
      let r := LastIndexByte s' sep in
      if (0 <=? r)%Z then (1 + r)%Z
      else if Ascii.eqb a sep then 0%Z else (-1)%Z
  end.

(** The slice [s[n:]]. *)
Fixpoint sliceFrom (n : nat) (s : string) : string :=
  match n, s with
  | O, _ => s
  | S n', String _ s' => sliceFrom n' s'
  | S _, EmptyString => EmptyString
  end.

Definition extractDomainFromEmail (email : string) : string :=
  let at_ := LastIndexByte email "@"%char in
  if (0 <=? at_)%Z then sliceFrom (Z.to_nat (at_ + 1)) email
  else wildcardDomainToAdminEmail.

(** The debug message written when the wildcard is tried leaves no trace
    here: the logger is not part of the model. *)
Definition findAdminService (c : googleConnector) (domain : string)
  : result admin.Service :=
  match adminSrv c !! domain with
  | Some srv => Ok srv
  | None =>
      match adminSrv c !! wildcardDomainToAdminEmail with
      | Some srv => Ok srv
      | None => Err (ErrNoAdminService domain)
      end
  end.

(** ** Group resolution (lines 285-330) *)

(** How a loop ends: it falls through with its variables, it leaves the
    function by [return nil, err], or the fuel is exhausted. *)
Inductive flow (A : Type) : Type :=
| Continue (a : A)
| Return (err : error)
| Timeout.
Arguments Continue {A} a.
Arguments Return {A} err.
Arguments Timeout {A}.

Section Loops.
(** The recursive call [c.getGroups(group.Email, ..., checkedGroups)]. *)
Variable rec : string → World → option (list string * option error) * World.
Variable fetchTransitive : bool.

(** [for _, group := range groupsList.Groups] (lines 302-322), from the
    current value of [userGroups]. *)
Fixpoint rangeGroups (gl : list admin.Group) (userGroups : list string)
    (w : World) : flow (list string) * World :=
  match gl with
  | [] => (Continue userGroups, w)
  | group :: rest =>
      if decide (admin.Email group ∈ checkedGroups w) then
        rangeGroups rest userGroups w
      else
        let w1 := mark (admin.Email group) w in
        let userGroups1 := userGroups ++ [admin.Email group] in
        if negb fetchTransitive then rangeGroups rest userGroups1 w1
        else
          match rec (admin.Email group) w1 with
          | (None, w2) => (Timeout, w2)
          | (Some (_, Some err), w2) =>
              (Return (ErrListTransitiveGroups err), w2)
          | (Some (transitiveGroups, None), w2) =>
              rangeGroups rest (userGroups1 ++ transitiveGroups) w2
          end
  end.

(** The paging loop [for { ... }] (lines 295-327), entered with the page
    token of the previous page. *)
Fixpoint pageLoop (srv : admin.Service) (email : string) (fuel : nat)
    (pageToken : string) (userGroups : list string) (w : World)
    : flow (list string) * World :=
  match fuel with
  | O => (Timeout, w)
  | S fuel' =>
      match srv email pageToken with
      | Err err =>
          (Return (ErrListGroups err),
           record (CallGroupsList email pageToken (Some err)) w)
      | Ok groupsList =>
          let w1 := record (CallGroupsList email pageToken None) w in
          match rangeGroups (admin.Items groupsList) userGroups w1 with
          | (Continue userGroups', w2) =>
              if decide (admin.NextPageToken groupsList = "") then
                (Continue userGroups', w2)
              else
                pageLoop srv email fuel' (admin.NextPageToken groupsList)
                  userGroups' w2
          | other => other
          end
      end
  end.
End Loops.

Fixpoint getGroups (fuel : nat) (c : googleConnector) (email : string)
    (fetchTransitiveGroupMembership : bool) (w : World)
    : option (list string * option error) * World :=
  match fuel with
  | O => (None, w)
  | S fuel' =>
      let domain := extractDomainFromEmail email in
      match findAdminService c domain with
      | Err err => (Some ([], Some err), w)
      | Ok srv =>
          match
            pageLoop
              (fun e w' => getGroups fuel' c e fetchTransitiveGroupMembership w')
              fetchTransitiveGroupMembership srv email fuel' "" [] w
          with
          | (Continue userGroups, w') => (Some (userGroups, None), w')
          | (Return err, w') => (Some ([], Some err), w')
          | (Timeout, w') => (None, w')
          end
      end
  end.

(** ** Login (lines 164-182) *)

(** The options [opts] that [LoginURL] passes to [AuthCodeURL]
    (lines 169-180). *)
Definition loginOpts (c : googleConnector) (s : connector.Scopes)
  : list oauth2.AuthCodeOption :=
  let opts := [] in
  let opts :=
    match hostedDomains c with
    | [] => opts
    | first :: _ =>
        let preferredDomain :=
          if (1 <? List.length (hostedDomains c))%nat then "*" else first in
        opts ++ [oauth2.SetAuthURLParam "hd" preferredDomain]
    end in
  if connector.OfflineAccess s then
    opts ++ [oauth2.AccessTypeOffline;
             oauth2.SetAuthURLParam "prompt" "consent"]
  else opts.

Definition LoginURL (c : googleConnector) (s : connector.Scopes)
    (callbackURL state : string) : string * option error :=
  if negb (String.eqb (redirectURI c) callbackURL) then
    ("", Some (ErrCallbackMismatch callbackURL (redirectURI c)))
  else
    (oauth2.AuthCodeURL (oauth2Config c) state (loginOpts c s), None).

(** ** Identity assembly (lines 222-281) *)

(** The search of lines 243-249: [found] after the loop. *)
Fixpoint foundHostedDomain (domains : list string) (hd : string) : bool :=
  match domains with
  | [] => false
  | domain :: rest =>
      if String.eqb hd domain then true else foundHostedDomain rest hd
  end.

(** Modelled from the spec: the function [Filter] of the package
    [pkg/groups], which is not among the sources.  The spec has "intersect
    the resolved groups with the whitelist": the given groups that are
    among the required ones, in the order given. *)
Definition Filter (given required : list string) : list string :=
  filter (λ g, g ∈ required) given.

Definition createIdentity (fuel : nat) (c : googleConnector)
    (identity : connector.Identity) (s : connector.Scopes)
    (token : oauth2.Token) (log : list Call)
    : option (connector.Identity * option error) * list Call :=
  match oauth2.Extra token "id_token" with
  | oauth2.Str rawIDToken =>
      let log := CallVerify rawIDToken :: log in
      match verifier c rawIDToken with
      | Err err => (Some (identity, Some (ErrVerifyIDToken err)), log)
      | Ok idToken =>
          match oidc.Claims idToken with
          | Err err => (Some (identity, Some (ErrDecodeClaims err)), log)
          | Ok claims =>
              if (0 <? List.length (hostedDomains c))%nat
                 && negb (foundHostedDomain (hostedDomains c)
                            (oidc.HostedDomain claims))
              then
                (Some (identity,
                       Some (ErrUnexpectedHD (oidc.HostedDomain claims))),
                 log)
              else
                let assemble (groups : list string) :=
                  {| connector.UserID := oidc.Subject idToken;
                     connector.Username := oidc.Username claims;
                     connector.Email := oidc.Email claims;
                     connector.EmailVerified := oidc.EmailVerified claims;
                     connector.ConnectorData :=
                       list_byte_of_string (oauth2.RefreshToken token);
                     connector.Groups' := groups |} in
                if connector.Groups s && (0 <? size (adminSrv c))%nat then
                  let checked := {| checkedGroups := ∅; calls := log |} in
                  match
                    getGroups fuel c (oidc.Email claims)
                      (fetchTransitiveGroupMembership c) checked
                  with
                  | (None, w) => (None, calls w)
                  | (Some (_, Some err), w) =>
                      (Some (identity, Some (ErrRetrieveGroups err)), calls w)
                  | (Some (resolved, None), w) =>
                      if (0 <? List.length (groups c))%nat then
                        let filtered := Filter resolved (groups c) in
                        if (List.length filtered =? 0)%nat then
                          (Some (identity,
                                 Some (ErrNotInRequiredGroups
                                         (oidc.Username claims))),
                           calls w)
                        else (Some (assemble filtered, None), calls w)
                      else (Some (assemble resolved, None), calls w)
                  end
                else (Some (assemble [], None), log)
          end
      end
  | _ => (Some (identity, Some ErrNoIDToken), log)
  end.

(** ** Callback and refresh (lines 196-220) *)

Definition HandleCallback (fuel : nat) (c : googleConnector)
    (s : connector.Scopes) (r : Request) (log : list Call)
    : option (connector.Identity * option error) * list Call :=
  let identity := connector.zero in
  let q := Query r in
  let errType := Get q "error" in
  if negb (String.eqb errType "") then
    (Some (identity, Some (OAuth2Error errType (Get q "error_description"))),
     log)
  else
    let log := CallExchange (Get q "code") :: log in
    match oauth2.Exchange (oauth2Config c) (Get q "code") with
    | Err err => (Some (identity, Some (ErrGetToken err)), log)
    | Ok token => createIdentity fuel c identity s token log
    end.

(** [now] is [time.Now()] in seconds; an hour is 3600 of them. *)
Definition Refresh (fuel : nat) (c : googleConnector) (now : Z)
    (s : connector.Scopes) (identity : connector.Identity) (log : list Call)
    : option (connector.Identity * option error) * list Call :=
  let t :=
    {| oauth2.RefreshToken :=
         string_of_list_byte (connector.ConnectorData identity);
       oauth2.Expiry := (now - 3600)%Z;
       oauth2.Extra := λ _, oauth2.Nil |} in
  let log := CallTokenSource (oauth2.RefreshToken t) :: log in
  match oauth2.TokenSource (oauth2Config c) t with
  | Err err => (Some (identity, Some (ErrGetToken err)), log)
  | Ok token => createIdentity fuel c identity s token log
  end.

(** ** The token source of the oauth2 library

    What [TokenSource(ctx, t).Token()] of the package [golang.org/x/oauth2]
    does with a token [t] that has expired, as a function of what the token
    endpoint responds to a refresh token: it fails when [t] has no refresh
    token, and a response without refresh token comes back with the refresh
    token of [t].  The package is a dependency of the connector, whose
    functions are defined over any token source; this one is the token
    source of the scenarios. *)
Definition refreshing (respond : string → result oauth2.Token)
  : oauth2.Token → result oauth2.Token := λ t,
  if String.eqb (oauth2.RefreshToken t) "" then
    Err (ExternalError "oauth2: token expired and refresh token is not set")
  else
    match respond (oauth2.RefreshToken t) with
    | Err err => Err err
    | Ok response =>
        if String.eqb (oauth2.RefreshToken response) "" then
          Ok {| oauth2.RefreshToken := oauth2.RefreshToken t;
                oauth2.Expiry := oauth2.Expiry response;
                oauth2.Extra := oauth2.Extra response |}
        else Ok response
    end.

(** ** Scenarios *)

Module Scenario.
Definition page (l : list string) : result admin.Groups :=
  Ok {| admin.Items := (λ e, {| admin.Email := e |}) <$> l;
        admin.NextPageToken := "" |}.

(** alice is in eng, eng is in all. *)
Definition clientX : admin.Service := λ userKey _,
  if String.eqb userKey "alice@example.com" then page ["eng@example.com"]
  else if String.eqb userKey "eng@example.com" then page ["all@example.com"]
  else page [].

(** A is in B and B is in A. *)
Definition clientCycle : admin.Service := λ userKey _,
  if String.eqb userKey "a@example.com" then page ["b@example.com"]
  else if String.eqb userKey "b@example.com" then page ["a@example.com"]
  else page [].

(** alice is in ops and eng; the listing of eng fails. *)
Definition clientBroken : admin.Service := λ userKey _,
  if String.eqb userKey "alice@example.com" then
    page ["ops@example.com"; "eng@example.com"]
  else if String.eqb userKey "eng@example.com" then
    Err (ExternalError "backend unavailable")
  else page [].

Definition aliceClaims : oidc.claims :=
  {| oidc.Username := "Alice"; oidc.Email := "alice@example.com";
     oidc.EmailVerified := true; oidc.HostedDomain := "example.com" |}.

Definition verify : string → result oidc.IDToken := λ rawIDToken,
  if String.eqb rawIDToken "signed" then
    Ok {| oidc.Subject := "alice-subject"; oidc.Claims := Ok aliceClaims |}
  else Err (ExternalError "bad signature").

(** A token response with the given refresh token. *)
Definition response (refreshToken : string) : oauth2.Token :=
  {| oauth2.RefreshToken := refreshToken; oauth2.Expiry := 0%Z;
     oauth2.Extra := λ key,
       if String.eqb key "id_token" then oauth2.Str "signed"
       else oauth2.Nil |}.

(** A provider whose refresh responses carry no refresh token, behind the
    token source of the library. *)
Definition provider : oauth2.Config :=
  {| oauth2.ClientID := "id"; oauth2.ClientSecret := "secret";
     oauth2.Scopes := ["openid"; "profile"; "email"];
     oauth2.RedirectURL := "https://dex.example.com/callback";
     oauth2.Exchange := λ code,
       if String.eqb code "good" then Ok (response "first")
       else Err (ExternalError "invalid_grant");
     oauth2.TokenSource := refreshing (λ _, Ok (response ""));
     oauth2.AuthCodeURL := λ state _, state |}.

Definition google (domains allowed : list string)
    (routes : gmap string admin.Service) (transitive : bool)
    : googleConnector :=
  {| redirectURI := "https://dex.example.com/callback";
     oauth2Config := provider;
     verifier := verify;
     hostedDomains := domains;
     groups := allowed;
     serviceAccountFilePath := "";
     domainToAdminEmail := ∅;
     fetchTransitiveGroupMembership := transitive;
     adminSrv := routes |}.

Definition fresh : World := {| checkedGroups := ∅; calls := [] |}.

Definition withGroups : connector.Scopes :=
  {| connector.OfflineAccess := false; connector.Groups := true |}.

Definition denied : Request :=
  {| Query := {[ "error" := ["access_denied"];
                 "error_description" := ["user cancelled"] ]} |}.
End Scenario.

(** * Properties *)

(** ** Relations of the directory *)

(** [listed srv email tok g]: the group [g] is on a page of the listing of
    the groups of [email], from the page of token [tok] onwards. *)
Inductive listed (srv : admin.Service) (email : string)
  : string → string → Prop :=
| listed_here tok page g :
    srv email tok = Ok page →
    g ∈ admin.Email <$> admin.Items page →
    listed srv email tok g
| listed_next tok page g :
    srv email tok = Ok page →
    admin.NextPageToken page ≠ "" →
    listed srv email (admin.NextPageToken page) g →
    listed srv email tok g.

Lemma listed_inv srv email tok g :
  listed srv email tok g →
  ∃ page, srv email tok = Ok page
          ∧ (g ∈ admin.Email <$> admin.Items page
             ∨ (admin.NextPageToken page ≠ ""
                ∧ listed srv email (admin.NextPageToken page) g)).
Proof. destruct 1; eauto 6. Qed.

(** [memberOf c e g]: the directory routed for [e] reports [e] as a direct
    member of [g]. *)
Definition memberOf (c : googleConnector) (e g : string) : Prop :=
  ∃ srv, findAdminService c (extractDomainFromEmail e) = Ok srv
         ∧ listed srv e "" g.

(** The groups above [e] in the membership graph. *)
Definition reachable (c : googleConnector) : string → string → Prop :=
  tc (memberOf c).

(** The paging of [email] from [pageToken] ends (by a last page or by a
    failure) within [n] pages. *)
Fixpoint pagesEnd (srv : admin.Service) (email : string) (n : nat)
    (pageToken : string) : bool :=
  match n with
  | O => false
  | S n' =>
      match srv email pageToken with
      | Err _ => true
      | Ok page =>
          if decide (admin.NextPageToken page = "") then true
          else pagesEnd srv email n' (admin.NextPageToken page)
      end
  end.

(** Every listing of every routed directory ends within [P] pages. *)
Definition pagingBounded (c : googleConnector) (P : nat) : Prop :=
  ∀ domain srv email,
    adminSrv c !! domain = Some srv → pagesEnd srv email P "" = true.

(** Every group of every page of every routed directory is in [U]. *)
Definition groupsWithin (c : googleConnector) (U : gset string) : Prop :=
  ∀ domain srv email tok page g,
    adminSrv c !! domain = Some srv →
    srv email tok = Ok page →
    g ∈ admin.Items page → admin.Email g ∈ U.

(** A logged directory call that failed. *)
Definition failedCall (call : Call) : Prop :=
  match call with
  | CallGroupsList _ _ (Some _) => True
  | _ => False
  end.

(** The error of a failed listing, wrapped once per level of recursion. *)
Inductive DirectoryQueryFailed : error → Prop :=
| dqf_here cause : DirectoryQueryFailed (ErrListGroups cause)
| dqf_below e :
    DirectoryQueryFailed e → DirectoryQueryFailed (ErrListTransitiveGroups e).

(** ** Routing *)

Lemma findAdminService_routed c domain srv :
  findAdminService c domain = Ok srv →
  ∃ d, adminSrv c !! d = Some srv.
Proof.
  unfold findAdminService. intros H.
  destruct (adminSrv c !! domain) as [s|] eqn:E1.
  - exists domain. congruence.
  - destruct (adminSrv c !! wildcardDomainToAdminEmail) as [s|] eqn:E2;
      [exists wildcardDomainToAdminEmail; congruence | discriminate].
Qed.

(** ** The visited set only grows, and the log only extends *)

(** Unfolds one iteration of the loop over the groups of a page. *)
Ltac range_step H :=
  simpl in H;
  match type of H with
  | context [decide (?x ∈ ?X)] => destruct (decide (x ∈ X))
  end.

Section Frame.
Variable rec : string → World → option (list string * option error) * World.
Variable ft : bool.

Hypothesis rec_grows : ∀ e w r w',
  rec e w = (r, w') → checkedGroups w ⊆ checkedGroups w'.

Lemma rangeGroups_grows gl ug w fl w' :
  rangeGroups rec ft gl ug w = (fl, w') →
  checkedGroups w ⊆ checkedGroups w'.
Proof.
  revert ug w. induction gl as [|g gl IH]; intros ug w H.
  - simpl in H. by simplify_eq.
  - range_step H; [by eauto|].
    destruct ft; simpl in H.
    + destruct (rec _ _) as [[[tg [err|]]|] w2] eqn:E;
        apply rec_grows in E; simpl in E.
      * simplify_eq. set_solver.
      * apply IH in H. set_solver.
      * simplify_eq. set_solver.
    + apply IH in H. simpl in H. set_solver.
Qed.

Lemma pageLoop_grows srv email fuel tok ug w fl w' :
  pageLoop rec ft srv email fuel tok ug w = (fl, w') →
  checkedGroups w ⊆ checkedGroups w'.
Proof.
  revert tok ug w. induction fuel as [|fuel IH]; intros tok ug w H;
    simpl in H; [by simplify_eq|].
  destruct (srv email tok) as [page|err]; [|by simplify_eq].
  destruct (rangeGroups _ _ _ _ _) as [fl1 w1] eqn:E.
  apply rangeGroups_grows in E. simpl in E.
  destruct fl1; [|by simplify_eq..].
  destruct (decide _); [by simplify_eq|].
  apply IH in H. set_solver.
Qed.
End Frame.

Lemma getGroups_grows fuel c email ft w r w' :
  getGroups fuel c email ft w = (r, w') →
  checkedGroups w ⊆ checkedGroups w'.
Proof.
  revert email w r w'. induction fuel as [|fuel IH]; intros email w r w' H;
    simpl in H; [by simplify_eq|].
  destruct (findAdminService _ _) as [srv|err]; [|by simplify_eq].
  destruct (pageLoop _ _ _ _ _ _ _ _) as [fl w1] eqn:E.
  apply pageLoop_grows in E; [|by eauto].
  destruct fl; by simplify_eq.
Qed.

(** ** A failed listing aborts the resolution *)

(** What the calls [new] logged by a run say about its outcome [failed]. *)
Definition logged (w w' : World) (failed : Prop) : Prop :=
  ∃ new, calls w' = new ++ calls w ∧ (Exists failedCall new → failed).

Lemma logged_refl w (failed : Prop) : logged w w failed.
Proof. exists []. split; [done|]. by intros ?%Exists_nil. Qed.

Lemma logged_trans w1 w2 w3 (F1 F2 : Prop) :
  logged w1 w2 F1 → ¬ F1 → logged w2 w3 F2 → logged w1 w3 F2.
Proof.
  intros (n1 & E1 & H1) HF (n2 & E2 & H2). exists (n2 ++ n1). split.
  - by rewrite E2, E1, (assoc_L (++)).
  - intros [?|?]%Exists_app; [auto|]. by destruct HF; auto.
Qed.

Lemma logged_weaken w w' (F1 F2 : Prop) :
  (F1 → F2) → logged w w' F1 → logged w w' F2.
Proof. intros HF (n & E & H). exists n. split; [done|]. auto. Qed.

Lemma logged_mark g w w' (F : Prop) : logged (mark g w) w' F → logged w w' F.
Proof. done. Qed.

Lemma logged_record_ok k t w w' (F : Prop) :
  logged (record (CallGroupsList k t None) w) w' F → logged w w' F.
Proof.
  intros (n & E & H). exists (n ++ [CallGroupsList k t None]). split.
  - rewrite E. simpl. by rewrite <-(assoc_L (++)).
  - intros [?|Hx]%Exists_app; [auto|].
    apply Exists_cons in Hx as [[]|[]%Exists_nil].
Qed.

Definition aborted {A} (fl : flow A) : Prop :=
  ∃ err, fl = Return err ∧ DirectoryQueryFailed err.

Definition abortedCall (r : option (list string * option error)) : Prop :=
  ∃ err, r = Some ([], Some err) ∧ DirectoryQueryFailed err.

Section Abort.
Variable rec : string → World → option (list string * option error) * World.
Variable ft : bool.

Hypothesis rec_logged : ∀ e w r w',
  rec e w = (r, w') → logged w w' (abortedCall r).

Lemma rangeGroups_logged gl ug w fl w' :
  rangeGroups rec ft gl ug w = (fl, w') → logged w w' (aborted fl).
Proof.
  revert ug w. induction gl as [|g gl IH]; intros ug w H.
  - simpl in H. simplify_eq. apply logged_refl.
  - range_step H; [by eauto|].
    destruct ft; simpl in H.
    + destruct (rec _ _) as [[[tg [err|]]|] w2] eqn:E;
        apply rec_logged, logged_mark in E.
      * simplify_eq. eapply logged_weaken; [|done].
        intros (e' & ? & ?). simplify_eq. eexists. split; [done|].
        by constructor.
      * apply IH in H. eapply logged_trans; [done| |done].
        by intros (? & ? & ?).
      * simplify_eq. eapply logged_weaken; [|done]. by intros (? & ? & ?).
    + apply IH in H. by apply logged_mark in H.
Qed.

Lemma pageLoop_logged srv email fuel tok ug w fl w' :
  pageLoop rec ft srv email fuel tok ug w = (fl, w') →
  logged w w' (aborted fl).
Proof.
  revert tok ug w. induction fuel as [|fuel IH]; intros tok ug w H;
    simpl in H; [simplify_eq; apply logged_refl|].
  destruct (srv email tok) as [page|err].
  - destruct (rangeGroups _ _ _ _ _) as [fl1 w1] eqn:E.
    apply rangeGroups_logged, logged_record_ok in E.
    destruct fl1; [|by simplify_eq..].
    destruct (decide _); [by simplify_eq|].
    apply IH in H. eapply logged_trans; [done| |done].
    by intros (? & ? & ?).
  - simplify_eq. eexists [_]. split; [done|]. intros _.
    eexists. split; [done|]. constructor.
Qed.
End Abort.

Lemma getGroups_logged fuel c email ft w r w' :
  getGroups fuel c email ft w = (r, w') → logged w w' (abortedCall r).
Proof.
  revert email w r w'. induction fuel as [|fuel IH]; intros email w r w' H;
    simpl in H; [simplify_eq; apply logged_refl|].
  destruct (findAdminService _ _) as [srv|err];
    [|simplify_eq; apply logged_refl].
  destruct (pageLoop _ _ _ _ _ _ _ _) as [fl w1] eqn:E.
  apply pageLoop_logged in E; [|by eauto].
  destruct fl; simplify_eq; (eapply logged_weaken; [|done]);
    intros (err' & ? & ?); simplify_eq.
  by eexists.
Qed.

(** ** What a resolution adds to the visited set

    [extends Q K w new w']: from the state [w] the run appended the groups
    [new], all fresh and distinct, and reached [w'], whose visited set is
    that of [w] plus [new]; every new group satisfies [Q], and [K g] holds
    of the final visited set for every new group [g]. *)

Definition extends (Q : string → Prop) (K : string → gset string → Prop)
    (w : World) (new : list string) (w' : World) : Prop :=
  NoDup new
  ∧ (∀ g, g ∈ new → g ∉ checkedGroups w)
  ∧ checkedGroups w' = checkedGroups w ∪ list_to_set new
  ∧ (∀ g, g ∈ new → K g (checkedGroups w'))
  ∧ (∀ g, g ∈ new → Q g).

Lemma extends_weaken (Q Q' : string → Prop) K w new w' :
  (∀ g, Q g → Q' g) → extends Q K w new w' → extends Q' K w new w'.
Proof. intros HQ (? & ? & ? & ? & ?). repeat split; auto. Qed.

Section Segments.
Variable Q : string → Prop.
Variable K : string → gset string → Prop.
Hypothesis K_mono : ∀ g V V', V ⊆ V' → K g V → K g V'.

Lemma extends_nil w : extends Q K w [] w.
Proof.
  repeat split; try (by intros ? ?%elem_of_nil).
  - constructor.
  - set_solver.
Qed.

Lemma extends_app w n1 w1 n2 w2 :
  extends Q K w n1 w1 → extends Q K w1 n2 w2 →
  extends Q K w (n1 ++ n2) w2.
Proof.
  intros (D1 & F1 & E1 & K1 & Q1) (D2 & F2 & E2 & K2 & Q2).
  repeat split.
  - apply NoDup_app. repeat split; [done| |done].
    intros g Hg1 Hg2. apply (F2 g Hg2). rewrite E1. set_solver.
  - intros g [?|Hg]%elem_of_app; [by auto|].
    specialize (F2 g Hg). rewrite E1 in F2. set_solver.
  - rewrite E2, E1, list_to_set_app_L. set_solver.
  - intros g [Hg|?]%elem_of_app; [|by auto].
    apply (K_mono g (checkedGroups w1)); [|by auto].
    rewrite E2. set_solver.
  - intros g [?|?]%elem_of_app; auto.
Qed.

Lemma extends_cons w g tg w2 :
  g ∉ checkedGroups w → Q g → K g (checkedGroups w2) →
  extends Q K (mark g w) tg w2 →
  extends Q K w (g :: tg) w2.
Proof.
  intros Hg HQ HK (D & F & E & K2 & Q2). simpl in *.
  repeat split.
  - apply NoDup_cons. split; [|done].
    intros Hin. apply (F g Hin). set_solver.
  - intros x [->|Hx]%elem_of_cons; [done|].
    specialize (F x Hx). set_solver.
  - rewrite E. set_solver.
  - intros x [->|?]%elem_of_cons; auto.
  - intros x [->|?]%elem_of_cons; auto.
Qed.

Lemma extends_record call w new w' :
  extends Q K (record call w) new w' → extends Q K w new w'.
Proof. done. Qed.

Section Walk.
Variable rec :
  string → World → option (list string * option error) * World.
Variable ft : bool.

(** With expansion, the recursive call on a fresh group [g] extends the
    visited set and establishes [K g]. *)
Hypothesis rec_extends : ft = true → ∀ g w tg w2,
  Q g → rec g w = (Some (tg, None), w2) →
  extends Q K w tg w2 ∧ K g (checkedGroups w2).

(** Without expansion, nothing is asked of a new group. *)
Hypothesis flat : ft = false → ∀ g V, K g V.

Lemma rangeGroups_extends gl ug w ug' w' :
  (∀ g, g ∈ gl → Q (admin.Email g)) →
  rangeGroups rec ft gl ug w = (Continue ug', w') →
  ∃ new, ug' = ug ++ new ∧ extends Q K w new w'
         ∧ ∀ g, g ∈ gl → admin.Email g ∈ checkedGroups w'.
Proof.
  revert ug w. induction gl as [|g gl IH]; intros ug w HQ H.
  - simpl in H. simplify_eq. exists []. rewrite app_nil_r.
    split_and!; [done|apply extends_nil|by intros ? ?%elem_of_nil].
  - assert (HQ' : ∀ x, x ∈ gl → Q (admin.Email x))
      by (intros; apply HQ; set_solver).
    assert (HQg : Q (admin.Email g)) by (apply HQ; set_solver).
    range_step H.
    { apply IH in H as (new & -> & Hext & Hin); [|done].
      exists new. split_and!; [done..|].
      intros x [->|?]%elem_of_cons; [|by auto].
      destruct Hext as (_ & _ & -> & _). set_solver. }
    destruct ft eqn:Eft; simpl in H.
    + destruct (rec _ _) as [[[tg [err|]]|] w2] eqn:E; [done| |done].
      apply rec_extends in E as [Hrec HK]; [|done..].
      apply IH in H as (new & -> & Hext & Hin); [|done].
      exists (admin.Email g :: tg ++ new).
      split; [by rewrite <-!(assoc_L (++))|].
      assert (Hsub : checkedGroups w2 ⊆ checkedGroups w')
        by (destruct Hext as (_ & _ & -> & _); set_solver).
      split.
      * change (extends Q K w ((admin.Email g :: tg) ++ new) w').
        eapply extends_app; [|done].
        by apply extends_cons.
      * intros x [->|?]%elem_of_cons; [|by auto].
        destruct Hrec as (_ & _ & Hw2 & _). simpl in Hw2. set_solver.
    + apply IH in H as (new & -> & Hext & Hin); [|done].
      exists (admin.Email g :: new).
      split; [by rewrite <-(assoc_L (++))|].
      assert (Hsub : {[admin.Email g]} ∪ checkedGroups w
                     ⊆ checkedGroups w')
        by (destruct Hext as (_ & _ & -> & _); set_solver).
      split.
      * apply extends_cons; auto.
      * intros x [->|?]%elem_of_cons; [|by auto]. set_solver.
Qed.

Lemma pageLoop_extends srv email fuel tok ug w ug' w' :
  (∀ g, listed srv email tok g → Q g) →
  pageLoop rec ft srv email fuel tok ug w = (Continue ug', w') →
  ∃ new, ug' = ug ++ new ∧ extends Q K w new w'
         ∧ ∀ g, listed srv email tok g → g ∈ checkedGroups w'.
Proof.
  revert tok ug w. induction fuel as [|fuel IH]; intros tok ug w HQ H;
    simpl in H; [done|].
  destruct (srv email tok) as [page|err] eqn:Epage; [|done].
  destruct (rangeGroups _ _ _ _ _) as [fl1 w1] eqn:E.
  destruct fl1 as [ug1| |]; [|by simplify_eq..].
  apply rangeGroups_extends in E as (new1 & -> & Hext1 & Hin1).
  2:{ intros g Hg. apply HQ. eapply listed_here; [done|].
      by apply list_elem_of_fmap_2. }
  apply extends_record in Hext1. simpl in Hin1.
  destruct (decide _) as [Hlast|Hmore].
  - simplify_eq. exists new1. split_and!; [done..|].
    intros g (page' & Hp & Hg)%listed_inv.
    rewrite Epage in Hp. simplify_eq. destruct Hg as [Hg|[? _]]; [|done].
    apply list_elem_of_fmap_1 in Hg as (x & -> & ?). auto.
  - apply IH in H as (new2 & -> & Hext2 & Hin2).
    2:{ intros g Hg. apply HQ. by eapply listed_next. }
    exists (new1 ++ new2). split; [by rewrite (assoc_L (++))|].
    split; [by eapply extends_app|].
    intros g (page' & Hp & Hg)%listed_inv.
    rewrite Epage in Hp. simplify_eq. destruct Hg as [Hg|[_ Hg]].
    + apply list_elem_of_fmap_1 in Hg as (x & -> & Hx).
      apply Hin1 in Hx.
      destruct Hext2 as (_ & _ & -> & _). set_solver.
    + auto.
Qed.
End Walk.
End Segments.

(** ** What a successful resolution returns *)

(** Every group that [g] is directly in has been visited. *)
Definition closedAt (c : googleConnector) (g : string) (V : gset string)
  : Prop :=
  ∀ h, memberOf c g h → h ∈ V.

Lemma closedAt_mono c g V V' : V ⊆ V' → closedAt c g V → closedAt c g V'.
Proof. intros HV Hc h Hh. apply HV. by apply Hc. Qed.

Lemma getGroups_transitive_extends fuel c email w gs w' :
  getGroups fuel c email true w = (Some (gs, None), w') →
  extends (reachable c email) (closedAt c) w gs w'
  ∧ closedAt c email (checkedGroups w').
Proof.
  revert email w gs w'.
  induction fuel as [|fuel IH]; intros email w gs w' H; simpl in H; [done|].
  destruct (findAdminService _ _) as [srv|err] eqn:Esrv; [|done].
  destruct (pageLoop _ _ _ _ _ _ _ _) as [fl w1] eqn:E.
  destruct fl as [ug| |]; [|done..]. simplify_eq.
  apply (pageLoop_extends (reachable c email) (closedAt c)) in E
    as (new & -> & Hext & Hin).
  - split; [done|]. intros h (srv' & Hs & Hl).
    rewrite Esrv in Hs. simplify_eq. auto.
  - apply closedAt_mono.
  - intros _ g w0 tg w2 Hg Hrec. apply IH in Hrec as [Hext Hcl].
    split; [|done]. eapply extends_weaken; [|done].
    intros x Hx. by eapply tc_trans.
  - done.
  - intros g Hl. apply tc_once. by exists srv.
Qed.

Lemma getGroups_direct_extends fuel c email w gs w' :
  getGroups fuel c email false w = (Some (gs, None), w') →
  extends (memberOf c email) (λ _ _, True) w gs w'
  ∧ closedAt c email (checkedGroups w').
Proof.
  destruct fuel as [|fuel]; intros H; simpl in H; [done|].
  destruct (findAdminService _ _) as [srv|err] eqn:Esrv; [|done].
  destruct (pageLoop _ _ _ _ _ _ _ _) as [fl w1] eqn:E.
  destruct fl as [ug| |]; [|done..]. simplify_eq.
  apply (pageLoop_extends (memberOf c email) (λ _ _, True)) in E
    as (new & -> & Hext & Hin).
  - split; [done|]. intros h (srv' & Hs & Hl).
    rewrite Esrv in Hs. simplify_eq. auto.
  - done.
  - done.
  - done.
  - intros g Hl. by exists srv.
Qed.

(** From an empty visited set, a closed set of groups that contains the
    groups of [email] contains all the groups above [email]. *)
Lemma reachable_closed c email (V : gset string) :
  closedAt c email V →
  (∀ g, g ∈ V → closedAt c g V) →
  ∀ g, reachable c email g → g ∈ V.
Proof.
  intros He HV g Hg.
  assert (Hgen : ∀ x y, tc (memberOf c) x y → x = email ∨ x ∈ V → y ∈ V).
  { clear g Hg. induction 1 as [x y Hxy|x y z Hxy _ IH]; intros Hx.
    - destruct Hx as [->|Hx]; [by apply He|by eapply HV].
    - apply IH. right. destruct Hx as [->|Hx]; [by apply He|by eapply HV]. }
  eapply Hgen; [done|by left].
Qed.

(** ** Every group is expanded once

    A listing is started by a call with the empty page token: the later
    pages are asked with the token of the page before, which is not empty. *)

(** The members whose listing the log shows started, most recent first. *)
Definition expansions (log : list Call) : list string :=
  omap (λ call,
          match call with
          | CallGroupsList userKey pageToken _ =>
              if decide (pageToken = "") then Some userKey else None
          | _ => None
          end) log.

Section Expansions.
Variable rec : string → World → option (list string * option error) * World.

Hypothesis rec_expands : ∀ g w tg w2,
  rec g w = (Some (tg, None), w2) →
  expansions (calls w2) = reverse tg ++ g :: expansions (calls w).

Lemma rangeGroups_expansions gl ug w ug' w' :
  rangeGroups rec true gl ug w = (Continue ug', w') →
  ∃ new, ug' = ug ++ new
         ∧ expansions (calls w') = reverse new ++ expansions (calls w).
Proof.
  revert ug w. induction gl as [|g gl IH]; intros ug w H.
  - simpl in H. simplify_eq. exists []. by rewrite app_nil_r.
  - range_step H; [by eauto|]. simpl in H.
    destruct (rec _ _) as [[[tg [err|]]|] w2] eqn:E; [done| |done].
    apply rec_expands in E. simpl in E.
    apply IH in H as (new & -> & Hexp).
    exists (admin.Email g :: tg ++ new).
    split; [by rewrite <-!(assoc_L (++))|].
    rewrite Hexp, E, reverse_cons, reverse_app.
    by rewrite <-!(assoc_L (++)).
Qed.

Lemma pageLoop_expansions srv email fuel tok ug w ug' w' :
  pageLoop rec true srv email fuel tok ug w = (Continue ug', w') →
  ∃ new, ug' = ug ++ new
         ∧ expansions (calls w')
           = reverse new
             ++ (if decide (tok = "") then [email] else [])
             ++ expansions (calls w).
Proof.
  revert tok ug w. induction fuel as [|fuel IH]; intros tok ug w H;
    simpl in H; [done|].
  destruct (srv email tok) as [page|err]; [|done].
  destruct (rangeGroups _ _ _ _ _) as [fl1 w1] eqn:E.
  destruct fl1 as [ug1| |]; [|by simplify_eq..].
  apply rangeGroups_expansions in E as (new1 & -> & Hexp1).
  assert (expansions (calls w1)
          = reverse new1 ++ (if decide (tok = "") then [email] else [])
            ++ expansions (calls w)) as Hw1.
  { rewrite Hexp1. simpl. by destruct (decide (tok = "")). }
  destruct (decide (admin.NextPageToken page = "")) as [|Hmore].
  - simplify_eq. by exists new1.
  - apply IH in H as (new2 & -> & Hexp2).
    exists (new1 ++ new2). split; [by rewrite (assoc_L (++))|].
    rewrite Hexp2, Hw1, reverse_app.
    destruct (decide (admin.NextPageToken page = "")); [done|].
    by rewrite <-!(assoc_L (++)).
Qed.
End Expansions.

Lemma getGroups_expansions fuel c email w gs w' :
  getGroups fuel c email true w = (Some (gs, None), w') →
  expansions (calls w') = reverse gs ++ email :: expansions (calls w).
Proof.
  revert email w gs w'.
  induction fuel as [|fuel IH]; intros email w gs w' H; simpl in H; [done|].
  destruct (findAdminService _ _) as [srv|err]; [|done].
  destruct (pageLoop _ _ _ _ _ _ _ _) as [fl w1] eqn:E.
  destruct fl as [ug| |]; [|done..]. simplify_eq.
  apply pageLoop_expansions in E as (new & -> & Hexp); [|by eauto].
  by rewrite Hexp.
Qed.

(** ** Resolution terminates on a finite directory *)

Section Termination.
Local Open Scope nat_scope.

Variable c : googleConnector.
Variable U : gset string.
Variable P : nat.
Hypothesis within : groupsWithin c U.
Hypothesis bounded : pagingBounded c P.

(** The groups not yet visited. *)
Definition unvisited (w : World) : nat := size (U ∖ checkedGroups w).

Lemma unvisited_mono w w' :
  checkedGroups w ⊆ checkedGroups w' → unvisited w' ≤ unvisited w.
Proof. intros Hsub. unfold unvisited. apply subseteq_size. set_solver. Qed.

Lemma unvisited_mark g w :
  g ∈ U → g ∉ checkedGroups w → unvisited (mark g w) < unvisited w.
Proof.
  intros HU Hg. unfold unvisited. apply subset_size. simpl.
  apply strict_spec_alt. split; [set_solver|].
  intros Heq. assert (g ∈ U ∖ checkedGroups w) as Hin by set_solver.
  rewrite <-Heq in Hin. set_solver.
Qed.

Section Loops.
Variable rec :
  string → World → option (list string * option error) * World.
Variable ft : bool.
Variable n : nat.

Hypothesis rec_grows : ∀ e w r w',
  rec e w = (r, w') → checkedGroups w ⊆ checkedGroups w'.
Hypothesis rec_total : ∀ e w, unvisited w < n → (rec e w).1 ≠ None.

Lemma rangeGroups_total gl ug w :
  (∀ g, g ∈ gl → admin.Email g ∈ U) →
  unvisited w ≤ n →
  (rangeGroups rec ft gl ug w).1 ≠ Timeout.
Proof.
  revert ug w. induction gl as [|g gl IH]; intros ug w HU Hn; [done|].
  assert (∀ x, x ∈ gl → admin.Email x ∈ U)
    by (intros; apply HU; set_solver).
  assert (admin.Email g ∈ U) by (apply HU; set_solver).
  simpl. destruct (decide _) as [|Hfresh]; [by apply IH|].
  pose proof (unvisited_mark _ _ ltac:(done) Hfresh) as Hlt.
  destruct ft; simpl.
  - pose proof (rec_total (admin.Email g) (mark (admin.Email g) w)
                  ltac:(lia)) as Hrec.
    destruct (rec _ _) as [[[tg [err|]]|] w2] eqn:E; [done| |done].
    apply IH; [done|].
    apply rec_grows, unvisited_mono in E. lia.
  - apply IH; [done|lia].
Qed.

Lemma pageLoop_total srv email domain k fuel tok ug w :
  adminSrv c !! domain = Some srv →
  pagesEnd srv email k tok = true → k ≤ fuel →
  unvisited w ≤ n →
  (pageLoop rec ft srv email fuel tok ug w).1 ≠ Timeout.
Proof.
  intros Hsrv. revert fuel tok ug w.
  induction k as [|k IH]; intros fuel tok ug w Hend Hk Hn; [done|].
  destruct fuel as [|fuel]; [lia|]. simpl in *.
  destruct (srv email tok) as [page|err] eqn:Epage; [|done].
  pose proof (rangeGroups_total (admin.Items page) ug
                (record (CallGroupsList email tok None) w)) as Hr.
  destruct (rangeGroups _ _ _ _ _) as [fl1 w1] eqn:E.
  apply rangeGroups_grows, unvisited_mono in E; [|done]. simpl in E.
  destruct fl1 as [ug1|err|]; simpl in *; [|done|].
  - destruct (decide _); [done|]. apply IH; [done|lia|].
    unfold unvisited in *. simpl in *. lia.
  - apply Hr; [|done]. intros g Hg. by eapply within.
Qed.
End Loops.

Lemma getGroups_total ft n : ∀ fuel email w,
  n + P < fuel → unvisited w ≤ n →
  (getGroups fuel c email ft w).1 ≠ None.
Proof.
  induction n as [|n IH]; intros fuel email w Hfuel Hn;
    (destruct fuel as [|fuel]; [lia|]); simpl;
    (destruct (findAdminService _ _) as [srv|err] eqn:Esrv; [|done]);
    apply findAdminService_routed in Esrv as [domain Hsrv].
  - assert (Hp := pageLoop_total (λ e w', getGroups fuel c e ft w') ft 0).
    specialize (Hp (λ e w0 r w1, getGroups_grows fuel c e ft w0 r w1)).
    specialize (Hp (λ e w0 (Hlt : unvisited w0 < 0),
                      False_ind _ (Nat.nlt_0_r _ Hlt))).
    specialize (Hp srv email domain P fuel "" [] w Hsrv).
    specialize (Hp (bounded _ _ _ Hsrv)).
    specialize (Hp ltac:(lia) Hn).
    by destruct (pageLoop _ _ _ _ _ _ _ _) as [[| |] ?].
  - assert (Hp := pageLoop_total (λ e w', getGroups fuel c e ft w') ft
                    (S n)).
    specialize (Hp (λ e w0 r w1, getGroups_grows fuel c e ft w0 r w1)).
    assert (Hrec : ∀ e w0, unvisited w0 < S n →
              (getGroups fuel c e ft w0).1 ≠ None)
      by (intros; apply IH; lia).
    specialize (Hp Hrec srv email domain P fuel "" [] w Hsrv).
    specialize (Hp (bounded _ _ _ Hsrv)).
    specialize (Hp ltac:(lia) Hn).
    by destruct (pageLoop _ _ _ _ _ _ _ _) as [[| |] ?].
Qed.
End Termination.

(** ** Resolution without expansion *)

Section Flat.
Variable rec : string → World → option (list string * option error) * World.


End Flat.


(** * The claims *)

(** ** Transitive resolution *)

Lemma cycle_within :
  groupsWithin (Scenario.google [] [] {[ "*" := Scenario.clientCycle ]} true)
    {[ "a@example.com"; "b@example.com" ]}.
Proof.
  intros domain srv email tok page g Hsrv Hpage Hg. simpl in Hsrv.
  apply lookup_singleton_Some in Hsrv as [_ <-].
  unfold Scenario.clientCycle, Scenario.page in Hpage.
  repeat case_match; simplify_eq; simpl in Hg; set_solver.
Qed.

Lemma cycle_bounded :
  pagingBounded (Scenario.google [] [] {[ "*" := Scenario.clientCycle ]} true)
    1.
Proof.
  intros domain srv email Hsrv. simpl in Hsrv.
  apply lookup_singleton_Some in Hsrv as [_ <-].
  unfold Scenario.clientCycle, Scenario.page. simpl.
  by repeat destruct (String.eqb _ _).
Qed.

(** On the cycle A in B, B in A, resolving A returns B and A, once each. *)
Example getGroups_cycle :
  (getGroups 4 (Scenario.google [] [] {[ "*" := Scenario.clientCycle ]} true)
     "a@example.com" true Scenario.fresh).1
  = Some (["b@example.com"; "a@example.com"], None).
Proof. vm_compute. reflexivity. Qed.

(** ** Direct memberships *)



(** ** All-or-nothing resolution *)

(** C6. Whatever the fuel, the connector, the member, the expansion flag and
    the state at entry: the calls logged by [getGroups] extend the log at
    entry, and if one of them is a listing that failed then the run has
    returned, with no group list and with the error of that listing wrapped
    once per level of recursion. *)
Theorem getGroups_all_or_nothing
    (fuel : nat) (c : googleConnector) (email : string) (ft : bool)
    (w : World) :
  ∃ new,
    calls (getGroups fuel c email ft w).2 = new ++ calls w
    ∧ (Exists failedCall new →
       ∃ err, (getGroups fuel c email ft w).1 = Some ([], Some err)
              ∧ DirectoryQueryFailed err).
Proof.
  destruct (getGroups fuel c email ft w) as [r w'] eqn:E.
  exact (getGroups_logged _ _ _ _ _ _ _ E).
Qed.

(** alice is in ops and eng; ops is listed, then the listing of eng fails:
    ops is not returned. *)
Example getGroups_discards_partial_result :
  getGroups 4
    (Scenario.google [] [] {[ "*" := Scenario.clientBroken ]} true)
    "alice@example.com" true Scenario.fresh
  = (Some ([], Some (ErrListTransitiveGroups
                       (ErrListGroups (ExternalError "backend unavailable")))),
     {| checkedGroups := {[ "ops@example.com"; "eng@example.com" ]};
        calls :=
          [CallGroupsList "eng@example.com" ""
             (Some (ExternalError "backend unavailable"));
           CallGroupsList "ops@example.com" "" None;
           CallGroupsList "alice@example.com" "" None] |}).
Proof. vm_compute. reflexivity. Qed.

(** ** Routing by tenant domain *)

(** The byte [a] occurs in [s]. *)
Fixpoint occurs (a : ascii) (s : string) : bool :=
  match s with
  | EmptyString => false
  | String b s' => Ascii.eqb b a || occurs a s'
  end.

Lemma LastIndexByte_absent s a :
  occurs a s = false → LastIndexByte s a = (-1)%Z.
Proof.
  induction s as [|b s IH]; simpl; [done|].
  intros [Hb Hs]%orb_false_iff. by rewrite (IH Hs), Hb.
Qed.

Lemma LastIndexByte_last l d a :
  occurs a d = false →
  LastIndexByte (l ++ String a d)%string a = Z.of_nat (String.length l).
Proof.
  intros Hd. induction l as [|b l IH]; simpl.
  - by rewrite (LastIndexByte_absent _ _ Hd), Ascii.eqb_refl.
  - rewrite IH.
    destruct (0 <=? Z.of_nat (String.length l))%Z eqn:E; [lia|].
    apply Z.leb_gt in E. lia.
Qed.

Lemma sliceFrom_append l a d :
  sliceFrom (S (String.length l)) (l ++ String a d)%string = d.
Proof. induction l as [|b l IH]; simpl; [done|]. exact IH. Qed.

Lemma extractDomainFromEmail_at local domain :
  occurs "@" domain = false →
  extractDomainFromEmail (local ++ String "@" domain)%string = domain.
Proof.
  intros Hd. unfold extractDomainFromEmail.
  rewrite (LastIndexByte_last _ _ _ Hd).
  destruct (0 <=? Z.of_nat (String.length local))%Z eqn:E.
  - replace (Z.to_nat (Z.of_nat (String.length local) + 1))
      with (S (String.length local)) by lia.
    apply sliceFrom_append.
  - apply Z.leb_gt in E. lia.
Qed.

Lemma extractDomainFromEmail_no_at email :
  occurs "@" email = false →
  extractDomainFromEmail email = wildcardDomainToAdminEmail.
Proof.
  intros He. unfold extractDomainFromEmail.
  by rewrite (LastIndexByte_absent _ _ He).
Qed.

(** C3. The domain of a member is what follows the last [@] of its email,
    and the wildcard when the email has no [@]; [findAdminService] answers
    with the client of the domain, else with the client of the wildcard, and
    else fails; in that last case [getGroups] returns the failure and leaves
    the visited set and the call log as they were: no directory call is
    made. *)
Theorem getGroups_routes_by_domain :
  (∀ local domain : string,
     occurs "@" domain = false →
     extractDomainFromEmail (local ++ String "@" domain)%string = domain)
  ∧ (∀ email : string,
       occurs "@" email = false → extractDomainFromEmail email = "*")
  ∧ (∀ (c : googleConnector) (domain : string) (srv : admin.Service),
       adminSrv c !! domain = Some srv →
       findAdminService c domain = Ok srv)
  ∧ (∀ (c : googleConnector) (domain : string) (srv : admin.Service),
       adminSrv c !! domain = None →
       adminSrv c !! "*" = Some srv →
       findAdminService c domain = Ok srv)
  ∧ (∀ (c : googleConnector) (email : string) (fuel : nat) (ft : bool)
       (w : World),
       adminSrv c !! extractDomainFromEmail email = None →
       adminSrv c !! "*" = None →
       findAdminService c (extractDomainFromEmail email)
         = Err (ErrNoAdminService (extractDomainFromEmail email))
       ∧ getGroups (S fuel) c email ft w
         = (Some ([], Some (ErrNoAdminService (extractDomainFromEmail email))),
            w)).
Proof.
  split_and!.
  - exact extractDomainFromEmail_at.
  - exact extractDomainFromEmail_no_at.
  - intros c domain srv H. unfold findAdminService. by rewrite H.
  - intros c domain srv H1 H2. unfold findAdminService.
    change wildcardDomainToAdminEmail with "*". by rewrite H1, H2.
  - intros c email fuel ft w H1 H2.
    assert (findAdminService c (extractDomainFromEmail email)
            = Err (ErrNoAdminService (extractDomainFromEmail email))) as Hf.
    { unfold findAdminService.
      change wildcardDomainToAdminEmail with "*". by rewrite H1, H2. }
    split; [done|]. simpl. by rewrite Hf.
Qed.

Lemma getGroups_routes_by_domain_witness :
  extractDomainFromEmail "alice@example.com" = "example.com"
  ∧ extractDomainFromEmail "alice" = "*"
  ∧ findAdminService
      (Scenario.google [] [] {[ "example.com" := Scenario.clientX ]} true)
      "example.com" = Ok Scenario.clientX
  ∧ findAdminService
      (Scenario.google [] [] {[ "*" := Scenario.clientX ]} true)
      "example.com" = Ok Scenario.clientX
  ∧ getGroups 1
      (Scenario.google [] [] {[ "other.org" := Scenario.clientX ]} true)
      "alice@example.com" true Scenario.fresh
    = (Some ([], Some (ErrNoAdminService "example.com")), Scenario.fresh).
Proof.
  destruct getGroups_routes_by_domain as (H1 & H2 & H3 & H4 & H5).
  split_and!.
  - apply (H1 "alice" "example.com"). reflexivity.
  - apply (H2 "alice"). reflexivity.
  - apply H3. reflexivity.
  - apply H4; reflexivity.
  - apply (H5 (Scenario.google [] [] {[ "other.org" := Scenario.clientX ]}
                 true) "alice@example.com" 0 true Scenario.fresh);
      reflexivity.
Defined.

(** ** Identity assembly *)

Lemma foundHostedDomain_spec domains hd :
  foundHostedDomain domains hd = true ↔ hd ∈ domains.
Proof.
  induction domains as [|d domains IH]; simpl.
  - split; [done|by intros ?%elem_of_nil].
  - destruct (String.eqb hd d) eqn:E.
    + apply String.eqb_eq in E as ->. split; [|done]. intros _. left.
    + apply String.eqb_neq in E. rewrite IH. split; [by right|].
      by intros [?|?]%elem_of_cons.
Qed.

(** The hosted-domain claim [hd] passes the whitelist [domains]. *)
Definition domainAllowed (domains : list string) (hd : string) : Prop :=
  domains = [] ∨ hd ∈ domains.

Lemma domain_check_spec domains hd :
  (0 <? List.length domains)%nat && negb (foundHostedDomain domains hd)
  = false ↔ domainAllowed domains hd.
Proof.
  unfold domainAllowed. rewrite andb_false_iff, negb_false_iff.
  rewrite foundHostedDomain_spec, Nat.ltb_ge.
  split; (intros [H|H]; [left|by right]).
  - destruct domains; [done|simpl in H; lia].
  - subst. simpl. lia.
Qed.

(** The outcome is the failure of the hosted-domain check. *)
Definition domainRejected
    (outcome : option (connector.Identity * option error) * list Call)
  : Prop :=
  ∃ identity hd, outcome.1 = Some (identity, Some (ErrUnexpectedHD hd)).

Section Assembly.
Variables (fuel : nat) (c : googleConnector) (identity : connector.Identity).
Variables (s : connector.Scopes) (token : oauth2.Token) (log : list Call).
Variables (rawIDToken : string) (idToken : oidc.IDToken).
Variable claims : oidc.claims.

(** The token response carries an ID token, which verifies and decodes. *)
Hypothesis has_id_token : oauth2.Extra token "id_token" = oauth2.Str rawIDToken.
Hypothesis verified : verifier c rawIDToken = Ok idToken.
Hypothesis decoded : oidc.Claims idToken = Ok claims.

(** The identity of lines 272-279 for the given groups. *)
Definition assembled (groups : list string) : connector.Identity :=
  {| connector.UserID := oidc.Subject idToken;
     connector.Username := oidc.Username claims;
     connector.Email := oidc.Email claims;
     connector.EmailVerified := oidc.EmailVerified claims;
     connector.ConnectorData := list_byte_of_string (oauth2.RefreshToken token);
     connector.Groups' := groups |}.

(** The state in which group resolution starts. *)
Definition atResolution : World :=
  {| checkedGroups := ∅; calls := CallVerify rawIDToken :: log |}.

Lemma createIdentity_rejected :
  ¬ domainAllowed (hostedDomains c) (oidc.HostedDomain claims) →
  createIdentity fuel c identity s token log
  = (Some (identity, Some (ErrUnexpectedHD (oidc.HostedDomain claims))),
     CallVerify rawIDToken :: log).
Proof.
  intros Hno. unfold createIdentity.
  rewrite has_id_token, verified, decoded.
  destruct (_ && _) eqn:E; [done|].
  by apply domain_check_spec in E.
Qed.

Lemma createIdentity_allowed :
  domainAllowed (hostedDomains c) (oidc.HostedDomain claims) →
  createIdentity fuel c identity s token log
  = if connector.Groups s && (0 <? size (adminSrv c))%nat then
      match
        getGroups fuel c (oidc.Email claims)
          (fetchTransitiveGroupMembership c) atResolution
      with
      | (None, w) => (None, calls w)
      | (Some (_, Some err), w) =>
          (Some (identity, Some (ErrRetrieveGroups err)), calls w)
      | (Some (resolved, None), w) =>
          if (0 <? List.length (groups c))%nat then
            if (List.length (Filter resolved (groups c)) =? 0)%nat then
              (Some (identity,
                     Some (ErrNotInRequiredGroups (oidc.Username claims))),
               calls w)
            else (Some (assembled (Filter resolved (groups c)), None), calls w)
          else (Some (assembled resolved, None), calls w)
      end
    else (Some (assembled [], None), CallVerify rawIDToken :: log).
Proof.
  intros Hok%domain_check_spec. unfold createIdentity.
  by rewrite has_id_token, verified, decoded, Hok.
Qed.

(** C4. For a token response whose ID token verifies and decodes: identity
    assembly does not fail at the hosted-domain check if and only if the
    whitelist is empty or the [hd] claim is equal, as a string, to one of its
    elements; otherwise it returns the identity it was given together with
    the error of the check. *)
Theorem createIdentity_hosted_domain_exact :
  (domainAllowed (hostedDomains c) (oidc.HostedDomain claims)
   ↔ ¬ domainRejected (createIdentity fuel c identity s token log))
  ∧ (¬ domainAllowed (hostedDomains c) (oidc.HostedDomain claims) →
     createIdentity fuel c identity s token log
     = (Some (identity, Some (ErrUnexpectedHD (oidc.HostedDomain claims))),
        CallVerify rawIDToken :: log)).
Proof.
  split; [|exact createIdentity_rejected].
  destruct ((0 <? List.length (hostedDomains c))%nat
            && negb (foundHostedDomain (hostedDomains c)
                       (oidc.HostedDomain claims))) eqn:E.
  - assert (¬ domainAllowed (hostedDomains c) (oidc.HostedDomain claims))
      as Hno by (rewrite <-domain_check_spec; congruence).
    split; [done|]. intros Hnr. destruct Hnr.
    rewrite (createIdentity_rejected Hno). by eexists _, _.
  - apply domain_check_spec in E. split; [|done]. intros _ (i & hd & Hr).
    rewrite (createIdentity_allowed E) in Hr.
    repeat case_match; simplify_eq.
Qed.

Lemma Filter_spec R G g : g ∈ Filter R G ↔ g ∈ R ∧ g ∈ G.
Proof. unfold Filter. rewrite list_elem_of_filter. tauto. Qed.

(** C5. When groups are resolved (scope requested, a route configured), the
    whitelist is not empty and the resolution returned the groups [R]: the
    outcome is the failure "not in any of the required groups" if no group
    of [R] is in the whitelist, and otherwise the identity whose groups are
    the groups of [R] that are in the whitelist, in the order of [R]. *)
Theorem createIdentity_group_whitelist (R : list string) :
  domainAllowed (hostedDomains c) (oidc.HostedDomain claims) →
  connector.Groups s = true →
  (0 < size (adminSrv c))%nat →
  groups c ≠ [] →
  (getGroups fuel c (oidc.Email claims) (fetchTransitiveGroupMembership c)
     atResolution).1 = Some (R, None) →
  (∀ g, g ∈ Filter R (groups c) ↔ g ∈ R ∧ g ∈ groups c)
  ∧ sublist (Filter R (groups c)) R
  ∧ ((∀ g, g ∈ R → g ∉ groups c) →
     (createIdentity fuel c identity s token log).1
     = Some (identity, Some (ErrNotInRequiredGroups (oidc.Username claims))))
  ∧ ((∃ g, g ∈ R ∧ g ∈ groups c) →
     (createIdentity fuel c identity s token log).1
     = Some (assembled (Filter R (groups c)), None)).
Proof.
  intros Hok Hscope Hroute Hlist Hres.
  split; [intros g; apply Filter_spec|].
  split; [apply sublist_filter|].
  rewrite (createIdentity_allowed Hok), Hscope.
  apply Nat.ltb_lt in Hroute. rewrite Hroute. simpl.
  destruct (getGroups _ _ _ _ _) as [r w']. simpl in Hres. subst r.
  assert ((0 <? List.length (groups c))%nat = true) as ->.
  { apply Nat.ltb_lt. destruct (groups c); [done|simpl; lia]. }
  split.
  - intros Hnone.
    assert (Filter R (groups c) = []) as ->; [|done].
    apply elem_of_nil_inv. intros g [? ?]%Filter_spec. by eapply Hnone.
  - intros (g & HR & HG).
    destruct (Filter R (groups c)) as [|x F] eqn:EF; [|done].
    assert (g ∈ Filter R (groups c)) as Hin by by apply Filter_spec.
    rewrite EF in Hin. by apply elem_of_nil in Hin.
Qed.

(** C9. When the groups scope is not requested, or the connector has no
    directory client, identity assembly succeeds with no group, whatever the
    group whitelist, and logs no call besides the verification. *)
Theorem createIdentity_skips_groups :
  domainAllowed (hostedDomains c) (oidc.HostedDomain claims) →
  connector.Groups s = false ∨ size (adminSrv c) = 0%nat →
  createIdentity fuel c identity s token log
  = (Some (assembled [], None), CallVerify rawIDToken :: log).
Proof.
  intros Hok Hskip. rewrite (createIdentity_allowed Hok).
  destruct Hskip as [->| ->]; [done|]. by rewrite andb_false_r.
Qed.
End Assembly.

Lemma createIdentity_hosted_domain_exact_witness :
  createIdentity 0
    (Scenario.google ["Example.com"; "example.co"; "mail.example.com"] []
       ∅ false)
    connector.zero Scenario.withGroups (Scenario.response "first") []
  = (Some (connector.zero, Some (ErrUnexpectedHD "example.com")),
     [CallVerify "signed"]).
Proof.
  apply (proj2
    (createIdentity_hosted_domain_exact 0
       (Scenario.google ["Example.com"; "example.co"; "mail.example.com"] []
          ∅ false)
       connector.zero Scenario.withGroups (Scenario.response "first") []
       "signed"
       {| oidc.Subject := "alice-subject";
          oidc.Claims := Ok Scenario.aliceClaims |}
       Scenario.aliceClaims eq_refl eq_refl eq_refl)).
  intros [H|H]; [discriminate|].
  apply foundHostedDomain_spec in H. vm_compute in H. discriminate.
Defined.

Lemma createIdentity_group_whitelist_witness :
  (createIdentity 4
     (Scenario.google [] ["all@example.com"; "admins@example.com"]
        {[ "example.com" := Scenario.clientX ]} true)
     connector.zero Scenario.withGroups (Scenario.response "first") []).1
  = Some
      ({| connector.UserID := "alice-subject";
          connector.Username := "Alice";
          connector.Email := "alice@example.com";
          connector.EmailVerified := true;
          connector.ConnectorData := list_byte_of_string "first";
          connector.Groups' :=
            Filter ["eng@example.com"; "all@example.com"]
              ["all@example.com"; "admins@example.com"] |}, None).
Proof.
  refine (proj2 (proj2 (proj2
    (createIdentity_group_whitelist 4
       (Scenario.google [] ["all@example.com"; "admins@example.com"]
          {[ "example.com" := Scenario.clientX ]} true)
       connector.zero Scenario.withGroups (Scenario.response "first") []
       "signed"
       {| oidc.Subject := "alice-subject";
          oidc.Claims := Ok Scenario.aliceClaims |}
       Scenario.aliceClaims eq_refl eq_refl eq_refl
       ["eng@example.com"; "all@example.com"] _ _ _ _ _))) _).
  - left. reflexivity.
  - reflexivity.
  - vm_compute. lia.
  - discriminate.
  - vm_compute. reflexivity.
  - exists "all@example.com". split; repeat constructor.
Defined.

(** The whitelist keeps [all] only. *)
Example Filter_alice :
  Filter ["eng@example.com"; "all@example.com"]
    ["all@example.com"; "admins@example.com"] = ["all@example.com"].
Proof. vm_compute. reflexivity. Qed.

Lemma createIdentity_skips_groups_witness :
  createIdentity 0
    (Scenario.google [] ["admins@example.com"] ∅ true)
    connector.zero Scenario.withGroups (Scenario.response "first") []
  = (Some
       ({| connector.UserID := "alice-subject";
           connector.Username := "Alice";
           connector.Email := "alice@example.com";
           connector.EmailVerified := true;
           connector.ConnectorData := list_byte_of_string "first";
           connector.Groups' := [] |}, None),
     [CallVerify "signed"]).
Proof.
  apply (createIdentity_skips_groups 0
           (Scenario.google [] ["admins@example.com"] ∅ true)
           connector.zero Scenario.withGroups (Scenario.response "first") []
           "signed"
           {| oidc.Subject := "alice-subject";
              oidc.Claims := Ok Scenario.aliceClaims |}
           Scenario.aliceClaims eq_refl eq_refl eq_refl).
  - left. reflexivity.
  - right. reflexivity.
Defined.

(** ** The callback *)

(** C7. A callback whose [error] parameter is not empty fails with the
    [oauth2Error] made of the [error] and [error_description] parameters as
    they are, and leaves the call log as it was: no exchange is made. *)
Theorem HandleCallback_provider_denied
    (fuel : nat) (c : googleConnector) (s : connector.Scopes) (r : Request)
    (log : list Call) :
  Get (Query r) "error" ≠ "" →
  HandleCallback fuel c s r log
  = (Some (connector.zero,
           Some (OAuth2Error (Get (Query r) "error")
                   (Get (Query r) "error_description"))),
     log).
Proof.
  intros Herr. unfold HandleCallback.
  destruct (String.eqb (Get (Query r) "error") "") eqn:E; [|done].
  by apply String.eqb_eq in E.
Qed.

Lemma HandleCallback_provider_denied_witness :
  HandleCallback 0 (Scenario.google [] [] ∅ false) Scenario.withGroups
    Scenario.denied []
  = (Some (connector.zero,
           Some (OAuth2Error "access_denied" "user cancelled")), []).
Proof.
  apply (HandleCallback_provider_denied 0 (Scenario.google [] [] ∅ false)
           Scenario.withGroups Scenario.denied []).
  vm_compute. discriminate.
Defined.

(** The message of that error has both strings. *)
Example oauth2Error_message :
  oauth2Error_Error "access_denied" "user cancelled"
  = "access_denied: user cancelled".
Proof. reflexivity. Qed.

(** ** The login URL *)

(** The values of the [hd] parameters among the options. *)
Definition hdParams (opts : list oauth2.AuthCodeOption) : list string :=
  omap (λ opt,
          match opt with
          | oauth2.SetAuthURLParam key value =>
              if String.eqb key "hd" then Some value else None
          | oauth2.AccessTypeOffline => None
          end) opts.

(** C8. For the configured callback URL, [LoginURL] is the authorization URL
    of the options [loginOpts]; among them there is no [hd] parameter when no
    hosted domain is configured, one [hd] parameter with the domain when one
    is configured, and one [hd] parameter with [*] when several are. *)
Theorem LoginURL_hosted_domain_hint
    (c : googleConnector) (s : connector.Scopes) (state : string) :
  LoginURL c s (redirectURI c) state
  = (oauth2.AuthCodeURL (oauth2Config c) state (loginOpts c s), None)
  ∧ hdParams (loginOpts c s)
    = match hostedDomains c with
      | [] => []
      | [domain] => [domain]
      | _ :: _ :: _ => ["*"]
      end.
Proof.
  split.
  - unfold LoginURL. by rewrite String.eqb_refl.
  - unfold loginOpts.
    destruct (hostedDomains c) as [|d [|d' rest]], (connector.OfflineAccess s);
      reflexivity.
Qed.

(** ** The reauthentication token *)

Lemma createIdentity_ConnectorData fuel c identity s token log identity' :
  (createIdentity fuel c identity s token log).1 = Some (identity', None) →
  connector.ConnectorData identity'
  = list_byte_of_string (oauth2.RefreshToken token).
Proof.
  unfold createIdentity. intros H.
  repeat case_match; simpl in H; simplify_eq; reflexivity.
Qed.

(** The token that [Refresh] hands to the token source. *)
Definition expired (now : Z) (identity : connector.Identity) : oauth2.Token :=
  {| oauth2.RefreshToken :=
       string_of_list_byte (connector.ConnectorData identity);
     oauth2.Expiry := (now - 3600)%Z;
     oauth2.Extra := λ _, oauth2.Nil |}.

(** C10. An identity assembled with success, by [createIdentity], by
    [HandleCallback] or by [Refresh], has for [ConnectorData] the bytes of
    the refresh token of the token that the oauth2 library returned,
    whatever was stored before.  With the token source of the library, a
    refresh whose response carries no refresh token therefore keeps the
    stored [ConnectorData]. *)
Theorem ConnectorData_is_returned_refresh_token :
  (∀ fuel c identity s token log identity',
     (createIdentity fuel c identity s token log).1 = Some (identity', None) →
     connector.ConnectorData identity'
     = list_byte_of_string (oauth2.RefreshToken token))
  ∧ (∀ fuel c s r log identity',
       (HandleCallback fuel c s r log).1 = Some (identity', None) →
       ∃ token,
         oauth2.Exchange (oauth2Config c) (Get (Query r) "code") = Ok token
         ∧ connector.ConnectorData identity'
           = list_byte_of_string (oauth2.RefreshToken token))
  ∧ (∀ fuel c now s identity log identity',
       (Refresh fuel c now s identity log).1 = Some (identity', None) →
       ∃ token,
         oauth2.TokenSource (oauth2Config c) (expired now identity) = Ok token
         ∧ connector.ConnectorData identity'
           = list_byte_of_string (oauth2.RefreshToken token))
  ∧ (∀ fuel c now s identity log identity' respond response,
       oauth2.TokenSource (oauth2Config c) = refreshing respond →
       respond (string_of_list_byte (connector.ConnectorData identity))
       = Ok response →
       oauth2.RefreshToken response = "" →
       (Refresh fuel c now s identity log).1 = Some (identity', None) →
       connector.ConnectorData identity' = connector.ConnectorData identity).
Proof.
  split_and!.
  - exact createIdentity_ConnectorData.
  - intros fuel c s r log identity'. unfold HandleCallback.
    destruct (negb _); [done|].
    destruct (oauth2.Exchange _ _) as [token|err]; [|done].
    intros H%createIdentity_ConnectorData. by exists token.
  - intros fuel c now s identity log identity'. unfold Refresh.
    fold (expired now identity).
    destruct (oauth2.TokenSource _ _) as [token|err]; [|done].
    intros H%createIdentity_ConnectorData. by exists token.
  - intros fuel c now s identity log identity' respond response Hlib Hresp
      Hempty.
    unfold Refresh. rewrite Hlib. unfold refreshing. simpl.
    destruct (String.eqb (string_of_list_byte _) ""); [done|].
    rewrite Hresp, Hempty. simpl.
    intros H%createIdentity_ConnectorData. simpl in H.
    by rewrite H, list_byte_of_string_of_list_byte.
Qed.

Lemma ConnectorData_is_returned_refresh_token_witness :
  connector.ConnectorData
    {| connector.UserID := "alice-subject";
       connector.Username := "Alice";
       connector.Email := "alice@example.com";
       connector.EmailVerified := true;
       connector.ConnectorData := list_byte_of_string "first";
       connector.Groups' := [] |}
  = connector.ConnectorData
      {| connector.UserID := "";
         connector.Username := "";
         connector.Email := "";
         connector.EmailVerified := false;
         connector.ConnectorData := list_byte_of_string "first";
         connector.Groups' := ["stale@example.com"] |}.
Proof.
  apply (proj2 (proj2 (proj2 ConnectorData_is_returned_refresh_token)) 0
           (Scenario.google [] [] ∅ false) 7200%Z Scenario.withGroups
           {| connector.UserID := "";
              connector.Username := "";
              connector.Email := "";
              connector.EmailVerified := false;
              connector.ConnectorData := list_byte_of_string "first";
              connector.Groups' := ["stale@example.com"] |} []
           {| connector.UserID := "alice-subject";
              connector.Username := "Alice";
              connector.Email := "alice@example.com";
              connector.EmailVerified := true;
              connector.ConnectorData := list_byte_of_string "first";
              connector.Groups' := [] |}
           (λ _, Ok (Scenario.response "")) (Scenario.response "")).
  - reflexivity.
  - reflexivity.
  - reflexivity.
  - vm_compute. reflexivity.
Defined.

(** A refresh whose response carries no refresh token, with the token
    source of the library: the stored token [first] is not replaced by the
    empty one, it is kept. *)
Lemma Refresh_keeps_stored_token :
  oauth2.TokenSource (oauth2Config (Scenario.google [] [] ∅ false))
  = refreshing (λ _, Ok (Scenario.response ""))
  ∧ oauth2.RefreshToken (Scenario.response "") = ""
  ∧ (Refresh 0 (Scenario.google [] [] ∅ false) 7200 Scenario.withGroups
       {| connector.UserID := "alice-subject";
          connector.Username := "Alice";
          connector.Email := "alice@example.com";
          connector.EmailVerified := true;
          connector.ConnectorData := list_byte_of_string "first";
          connector.Groups' := [] |} []).1
    = Some ({| connector.UserID := "alice-subject";
               connector.Username := "Alice";
               connector.Email := "alice@example.com";
               connector.EmailVerified := true;
               connector.ConnectorData := list_byte_of_string "first";
               connector.Groups' := [] |}, None)
  ∧ list_byte_of_string "first" ≠ [].
Proof.
  split_and!; [reflexivity|reflexivity|vm_compute; reflexivity|discriminate].
Qed.

(** * Further properties of group resolution *)

(** ** The contract of the visited set *)

(** A directory in which alice is in eng and in a group of another tenant,
    for which no client is configured. *)
Definition clientPartners : admin.Service := λ userKey _,
  if String.eqb userKey "alice@example.com" then
    Scenario.page ["eng@example.com"; "guests@partner.org"]
  else Scenario.page [].

(** X1. Whatever the flag and the visited set at entry, a group list returned
    by [getGroups] has no duplicate and no group that was visited at entry;
    the visited set at exit is the one at entry plus the returned groups, and
    it contains every group the member is directly in. *)
Theorem getGroups_visited_contract
    (fuel : nat) (c : googleConnector) (email : string) (ft : bool)
    (w : World) (gs : list string) :
  (getGroups fuel c email ft w).1 = Some (gs, None) →
  NoDup gs
  ∧ (∀ g, g ∈ gs → g ∉ checkedGroups w)
  ∧ checkedGroups (getGroups fuel c email ft w).2
    = checkedGroups w ∪ list_to_set gs
  ∧ (∀ g, memberOf c email g →
          g ∈ checkedGroups (getGroups fuel c email ft w).2).
Proof.
  destruct (getGroups fuel c email ft w) as [r w'] eqn:E. simpl.
  intros ->. destruct ft.
  - apply getGroups_transitive_extends in E as [(? & ? & ? & _) ?]. done.
  - apply getGroups_direct_extends in E as [(? & ? & ? & _) ?]. done.
Qed.

(** The state in which A has been visited. *)
Definition visitedA : World :=
  {| checkedGroups := {[ "a@example.com" ]}; calls := [] |}.

Lemma getGroups_visited_contract_witness :
  NoDup ["b@example.com"]
  ∧ (∀ g, g ∈ ["b@example.com"] → g ∉ checkedGroups visitedA)
  ∧ checkedGroups
      (getGroups 4
         (Scenario.google [] [] {[ "*" := Scenario.clientCycle ]} true)
         "a@example.com" true visitedA).2
    = checkedGroups visitedA ∪ list_to_set ["b@example.com"]
  ∧ (∀ g,
       memberOf (Scenario.google [] [] {[ "*" := Scenario.clientCycle ]} true)
         "a@example.com" g →
       g ∈ checkedGroups
             (getGroups 4
                (Scenario.google [] [] {[ "*" := Scenario.clientCycle ]} true)
                "a@example.com" true visitedA).2).
Proof.
  apply (getGroups_visited_contract 4
           (Scenario.google [] [] {[ "*" := Scenario.clientCycle ]} true)
           "a@example.com" true visitedA ["b@example.com"]).
  vm_compute. reflexivity.
Defined.

(** ** Groups reached outside the visited set *)

(** [e] is directly in [g], and [g] is not in [V]. *)
Definition memberOutside (c : googleConnector) (V : gset string)
    (e g : string) : Prop :=
  memberOf c e g ∧ g ∉ V.

(** The groups above [e] through groups that are not in [V]. *)
Definition reachableOutside (c : googleConnector) (V : gset string)
  : string → string → Prop :=
  tc (memberOutside c V).

Lemma reachableOutside_mono c (V V' : gset string) e g :
  V ⊆ V' → reachableOutside c V' e g → reachableOutside c V e g.
Proof.
  intros HV. induction 1 as [x y [? ?]|x y z [? ?] _ IH].
  - apply tc_once. split; [done|]. set_solver.
  - eapply tc_l; [|done]. split; [done|]. set_solver.
Qed.

Section Outside.
Variable c : googleConnector.
Variable V0 : gset string.
Variable rec : string → World → option (list string * option error) * World.

Hypothesis rec_grows : ∀ e w r w',
  rec e w = (r, w') → checkedGroups w ⊆ checkedGroups w'.
Hypothesis rec_outside : ∀ g w tg w2,
  V0 ⊆ checkedGroups w →
  rec g w = (Some (tg, None), w2) →
  ∀ x, x ∈ tg → reachableOutside c V0 g x.

Lemma rangeGroups_outside e gl ug w ug' w' :
  V0 ⊆ checkedGroups w →
  (∀ g, g ∈ gl → memberOf c e (admin.Email g)) →
  rangeGroups rec true gl ug w = (Continue ug', w') →
  ∃ new, ug' = ug ++ new ∧ ∀ x, x ∈ new → reachableOutside c V0 e x.
Proof.
  revert ug w. induction gl as [|g gl IH]; intros ug w HV Hmem H.
  - simpl in H. simplify_eq. exists []. rewrite app_nil_r.
    split; [done|]. by intros ? ?%elem_of_nil.
  - assert (∀ x, x ∈ gl → memberOf c e (admin.Email x))
      by (intros; apply Hmem; set_solver).
    assert (memberOf c e (admin.Email g)) by (apply Hmem; set_solver).
    range_step H; [by eauto|]. simpl in H.
    destruct (rec _ _) as [[[tg [err|]]|] w2] eqn:E; [done| |done].
    assert (reachableOutside c V0 e (admin.Email g)) as Hg.
    { apply tc_once. split; [done|]. set_solver. }
    pose proof (rec_grows _ _ _ _ E) as Hsub. simpl in Hsub.
    assert (V0 ⊆ checkedGroups (mark (admin.Email g) w)) as HV1
      by (simpl; set_solver).
    pose proof (rec_outside _ _ _ _ HV1 E) as Htg.
    apply IH in H as (new & -> & Hnew); [|set_solver|done].
    exists (admin.Email g :: tg ++ new).
    split; [by rewrite <-!(assoc_L (++))|].
    intros x [->|[Hx|Hx]%elem_of_app]%elem_of_cons; [done| |by auto].
    eapply tc_trans; [done|by apply Htg].
Qed.

Lemma pageLoop_outside srv e fuel tok ug w ug' w' :
  V0 ⊆ checkedGroups w →
  (∀ g, listed srv e tok g → memberOf c e g) →
  pageLoop rec true srv e fuel tok ug w = (Continue ug', w') →
  ∃ new, ug' = ug ++ new ∧ ∀ x, x ∈ new → reachableOutside c V0 e x.
Proof.
  revert tok ug w. induction fuel as [|fuel IH]; intros tok ug w HV Hmem H;
    simpl in H; [done|].
  destruct (srv e tok) as [page|err] eqn:Epage; [|done].
  destruct (rangeGroups _ _ _ _ _) as [fl1 w1] eqn:E.
  destruct fl1 as [ug1| |]; [|by simplify_eq..].
  pose proof (rangeGroups_grows _ _ rec_grows _ _ _ _ _ E) as Hsub.
  simpl in Hsub.
  apply (rangeGroups_outside e) in E as (new1 & -> & Hnew1); [|done|].
  2:{ intros g Hg. apply Hmem. eapply listed_here; [done|].
      by apply list_elem_of_fmap_2. }
  destruct (decide _) as [|Hmore].
  - simplify_eq. by exists new1.
  - apply IH in H as (new2 & -> & Hnew2); [|set_solver|].
    2:{ intros g Hg. apply Hmem. by eapply listed_next. }
    exists (new1 ++ new2). split; [by rewrite (assoc_L (++))|].
    intros x [?|?]%elem_of_app; auto.
Qed.
End Outside.

Lemma getGroups_outside fuel c email w gs w' :
  getGroups fuel c email true w = (Some (gs, None), w') →
  ∀ x, x ∈ gs → reachableOutside c (checkedGroups w) email x.
Proof.
  revert email w gs w'.
  induction fuel as [|fuel IH]; intros email w gs w' H; simpl in H; [done|].
  destruct (findAdminService _ _) as [srv|err] eqn:Esrv; [|done].
  destruct (pageLoop _ _ _ _ _ _ _ _) as [fl w1] eqn:E.
  destruct fl as [ug| |]; [|done..]. simplify_eq.
  apply (pageLoop_outside c (checkedGroups w)) in E as (new & -> & Hnew).
  - done.
  - intros. by eapply getGroups_grows.
  - intros g w0 tg w2 HV Hrec x Hx.
    eapply reachableOutside_mono; [done|]. by eapply IH.
  - done.
  - intros g Hl. by exists srv.
Qed.

(** X2. With expansion, and whatever the visited set at entry, the groups
    returned by [getGroups] are exactly the groups that can be reached from
    the member through groups that were not visited at entry. *)
Theorem getGroups_reaches_outside_visited
    (fuel : nat) (c : googleConnector) (email : string) (w : World)
    (gs : list string) :
  (getGroups fuel c email true w).1 = Some (gs, None) →
  ∀ g, g ∈ gs ↔ reachableOutside c (checkedGroups w) email g.
Proof.
  destruct (getGroups fuel c email true w) as [r w'] eqn:E. simpl.
  intros -> g. split; [by eapply getGroups_outside|].
  apply getGroups_transitive_extends in E
    as [(_ & _ & Hset & Hclosed & _) Hroot].
  assert (Hgen : ∀ x y, reachableOutside c (checkedGroups w) x y →
                        x = email ∨ x ∈ gs → y ∈ gs).
  { assert (Hstep : ∀ x y, memberOutside c (checkedGroups w) x y →
                           x = email ∨ x ∈ gs → y ∈ gs).
    { intros x y [Hxy Hy] Hx.
      assert (y ∈ checkedGroups w') as Hin
        by (destruct Hx as [->|Hx]; [by apply Hroot|by eapply Hclosed]).
      rewrite Hset in Hin. set_solver. }
    induction 1 as [x y Hxy|x y z Hxy _ IH]; intros Hx; [by eauto|].
    apply IH. right. by eauto. }
  intros Hg. eapply Hgen; [done|by left].
Qed.

Lemma getGroups_reaches_outside_visited_witness :
  "b@example.com" ∈ ["b@example.com"] ↔
  reachableOutside
    (Scenario.google [] [] {[ "*" := Scenario.clientCycle ]} true)
    (checkedGroups visitedA) "a@example.com" "b@example.com".
Proof.
  apply (getGroups_reaches_outside_visited 4
           (Scenario.google [] [] {[ "*" := Scenario.clientCycle ]} true)
           "a@example.com" visitedA ["b@example.com"]).
  vm_compute. reflexivity.
Defined.

(** ** Where an error of the resolution comes from *)

(** [ResolutionError c email err]: [err] is the error of a listing of
    [email] that failed, the error of the missing route of [email], or such
    an error for a group [email] is directly in, wrapped once more. *)
Inductive ResolutionError (c : googleConnector) : string → error → Prop :=
| re_listing email srv tok cause :
    findAdminService c (extractDomainFromEmail email) = Ok srv →
    srv email tok = Err cause →
    ResolutionError c email (ErrListGroups cause)
| re_route email :
    adminSrv c !! extractDomainFromEmail email = None →
    adminSrv c !! wildcardDomainToAdminEmail = None →
    ResolutionError c email
      (ErrNoAdminService (extractDomainFromEmail email))
| re_below email g err :
    memberOf c email g →
    ResolutionError c g err →
    ResolutionError c email (ErrListTransitiveGroups err).

Lemma findAdminService_Err c domain err :
  findAdminService c domain = Err err →
  err = ErrNoAdminService domain
  ∧ adminSrv c !! domain = None
  ∧ adminSrv c !! wildcardDomainToAdminEmail = None.
Proof.
  unfold findAdminService. intros H.
  destruct (adminSrv c !! domain); [done|].
  destruct (adminSrv c !! wildcardDomainToAdminEmail); [done|].
  by simplify_eq.
Qed.

Section Provenance.
Variable c : googleConnector.
Variable rec : string → World → option (list string * option error) * World.
Variable ft : bool.

Hypothesis rec_error : ∀ g w gs err w',
  rec g w = (Some (gs, Some err), w') → ResolutionError c g err.

Lemma rangeGroups_error e gl ug w err w' :
  (∀ g, g ∈ gl → memberOf c e (admin.Email g)) →
  rangeGroups rec ft gl ug w = (Return err, w') →
  ResolutionError c e err.
Proof.
  revert ug w. induction gl as [|g gl IH]; intros ug w Hmem H; [done|].
  assert (∀ x, x ∈ gl → memberOf c e (admin.Email x))
    by (intros; apply Hmem; set_solver).
  assert (memberOf c e (admin.Email g)) by (apply Hmem; set_solver).
  range_step H; [by eauto|].
  destruct ft; simpl in H; [|by eauto].
  destruct (rec _ _) as [[[tg [err0|]]|] w2] eqn:E; [|by eauto|done].
  simplify_eq. eapply re_below; [done|]. by eapply rec_error.
Qed.

Lemma pageLoop_error srv e fuel tok ug w err w' :
  findAdminService c (extractDomainFromEmail e) = Ok srv →
  (∀ g, listed srv e tok g → memberOf c e g) →
  pageLoop rec ft srv e fuel tok ug w = (Return err, w') →
  ResolutionError c e err.
Proof.
  intros Hsrv. revert tok ug w.
  induction fuel as [|fuel IH]; intros tok ug w Hmem H; simpl in H; [done|].
  destruct (srv e tok) as [page|cause] eqn:Epage.
  - destruct (rangeGroups _ _ _ _ _) as [fl1 w1] eqn:E.
    destruct fl1 as [ug1|err1|]; [| |done].
    + destruct (decide _); [done|]. eapply IH; [|done].
      intros g Hg. apply Hmem. by eapply listed_next.
    + simplify_eq. eapply rangeGroups_error; [|done].
      intros g Hg. apply Hmem. eapply listed_here; [done|].
      by apply list_elem_of_fmap_2.
  - simplify_eq. by eapply re_listing.
Qed.
End Provenance.

Lemma getGroups_error_inv fuel c email ft w gs err w' :
  getGroups fuel c email ft w = (Some (gs, Some err), w') →
  gs = [] ∧ ResolutionError c email err.
Proof.
  revert email w gs err w'.
  induction fuel as [|fuel IH]; intros email w gs err w' H; simpl in H;
    [done|].
  destruct (findAdminService _ _) as [srv|err0] eqn:Esrv.
  - destruct (pageLoop _ _ _ _ _ _ _ _) as [fl w1] eqn:E.
    destruct fl as [ug|err1|]; [done| |done]. simplify_eq.
    split; [done|]. eapply pageLoop_error; [|done| |done].
    + intros g w0 gs0 err0 w2 Hrec. by apply IH in Hrec as [_ ?].
    + intros g Hl. by exists srv.
  - simplify_eq. split; [done|].
    apply findAdminService_Err in Esrv as (-> & ? & ?). by apply re_route.
Qed.

Lemma ResolutionError_routed c email err srv0 :
  adminSrv c !! wildcardDomainToAdminEmail = Some srv0 →
  ResolutionError c email err → DirectoryQueryFailed err.
Proof.
  intros Hwild. induction 1 as [| |e g err' _ _ IH].
  - constructor.
  - congruence.
  - by constructor.
Qed.

(** X3. When [getGroups] returns an error, whatever the flag and the state
    at entry, it returns no group, and the error tells where it comes from:
    it is the failure of a listing of the member, or the missing route of
    the member's domain, or such an error of a group the member is directly
    in, wrapped once for that level. *)
Theorem getGroups_error_provenance
    (fuel : nat) (c : googleConnector) (email : string) (ft : bool)
    (w : World) (gs : list string) (err : error) :
  (getGroups fuel c email ft w).1 = Some (gs, Some err) →
  gs = [] ∧ ResolutionError c email err.
Proof.
  destruct (getGroups fuel c email ft w) as [r w'] eqn:E. simpl.
  intros ->. by eapply getGroups_error_inv.
Qed.

Lemma getGroups_error_provenance_witness :
  [] = ([] : list string)
  ∧ ResolutionError
      (Scenario.google [] [] {[ "example.com" := clientPartners ]} true)
      "alice@example.com"
      (ErrListTransitiveGroups (ErrNoAdminService "partner.org")).
Proof.
  apply (getGroups_error_provenance 4
           (Scenario.google [] [] {[ "example.com" := clientPartners ]} true)
           "alice@example.com" true Scenario.fresh).
  vm_compute. reflexivity.
Defined.

(** X4. On a connector that has a client for the wildcard domain, every
    error returned by [getGroups] is the failure of a listing: the
    resolution never fails for want of a route, at any depth. *)
Theorem getGroups_wildcard_never_unrouted
    (fuel : nat) (c : googleConnector) (email : string) (ft : bool)
    (w : World) (srv0 : admin.Service) (gs : list string) (err : error) :
  adminSrv c !! "*" = Some srv0 →
  (getGroups fuel c email ft w).1 = Some (gs, Some err) →
  DirectoryQueryFailed err.
Proof.
  intros Hwild.
  destruct (getGroups fuel c email ft w) as [r w'] eqn:E. simpl.
  intros ->. apply getGroups_error_inv in E as [_ Herr].
  by eapply ResolutionError_routed.
Qed.

Lemma getGroups_wildcard_never_unrouted_witness :
  DirectoryQueryFailed
    (ErrListTransitiveGroups
       (ErrListGroups (ExternalError "backend unavailable"))).
Proof.
  apply (getGroups_wildcard_never_unrouted 4
           (Scenario.google [] [] {[ "*" := Scenario.clientBroken ]} true)
           "alice@example.com" true Scenario.fresh Scenario.clientBroken []).
  - reflexivity.
  - vm_compute. reflexivity.
Defined.

(** ** Transitive resolution returns the reachable groups *)

(** No listing of a routed directory fails. *)
Definition listingsSucceed (c : googleConnector) : Prop :=
  ∀ domain srv email tok,
    adminSrv c !! domain = Some srv → ∃ page, srv email tok = Ok page.

(** The member [email] and every group reachable from it have a directory
    client. *)
Definition membersRouted (c : googleConnector) (email : string) : Prop :=
  ∀ e, e = email ∨ reachable c email e →
       ∃ srv, findAdminService c (extractDomainFromEmail e) = Ok srv.

Lemma ResolutionError_impossible c email e err :
  listingsSucceed c → membersRouted c email →
  e = email ∨ reachable c email e → ResolutionError c e err → False.
Proof.
  intros Hok Hrouted He Herr.
  induction Herr as [e srv tok cause Hsrv Hfail|e Hd Hw|e g err Hmem _ IH].
  - apply findAdminService_routed in Hsrv as [domain Hsrv].
    destruct (Hok _ _ e tok Hsrv) as [page Hpage]. congruence.
  - destruct (Hrouted e He) as [srv Hsrv].
    unfold findAdminService in Hsrv. by rewrite Hd, Hw in Hsrv.
  - apply IH. right. destruct He as [->|He].
    + by apply tc_once.
    + by eapply tc_r.
Qed.

(** C1. On a finite directory (all groups within a finite set, every listing
    ending after boundedly many pages) and from an empty visited set,
    [getGroups] with transitive expansion returns once the fuel exceeds the
    number of groups plus the page bound.  When it returns a group list, the
    list has no duplicate, its elements are exactly the groups reachable
    from the email in the membership graph, cyclic or not, and the listings
    started during the run are one for the email and then one for each
    returned group, in the order of the list.  And it does return a group
    list when no listing fails and the email and the groups reachable from
    it have a directory client. *)
Theorem getGroups_transitive_terminates_once_each
    (c : googleConnector) (email : string) (U : gset string) (P : nat)
    (log : list Call) (fuel : nat) :
  groupsWithin c U →
  pagingBounded c P →
  (size U + P < fuel)%nat →
  ∃ r w',
    getGroups fuel c email true {| checkedGroups := ∅; calls := log |}
      = (Some r, w')
    ∧ (∀ gs, r = (gs, None) →
         NoDup gs
         ∧ (∀ g, g ∈ gs ↔ reachable c email g)
         ∧ expansions (calls w') = reverse gs ++ email :: expansions log)
    ∧ (listingsSucceed c → membersRouted c email → ∃ gs, r = (gs, None)).
Proof.
  intros Hwithin Hbounded Hfuel.
  pose proof (getGroups_total c U P Hwithin Hbounded true (size U) fuel email
                {| checkedGroups := ∅; calls := log |} Hfuel) as Htotal.
  destruct (getGroups _ _ _ _ _) as [[r|] w'] eqn:E.
  2:{ destruct Htotal; [|done]. unfold unvisited. simpl.
      apply subseteq_size. set_solver. }
  exists r, w'. split_and!; [done| |].
  - intros gs ->.
    pose proof (getGroups_expansions _ _ _ _ _ _ E) as Hexp.
    apply getGroups_transitive_extends in E
      as [(Hdup & _ & Hset & Hclosed & Hreach) Hroot].
    simpl in Hset. split_and!; [done| |done].
    intros g. split; [by auto|].
    intros Hg.
    assert (g ∈ checkedGroups w') as Hin.
    { eapply reachable_closed; [done| |done].
      intros x Hx. apply Hclosed. rewrite Hset in Hx. set_solver. }
    rewrite Hset in Hin. set_solver.
  - intros Hok Hrouted. destruct r as [gs [err|]]; [|by exists gs].
    apply getGroups_error_inv in E as [_ Herr].
    destruct (ResolutionError_impossible c email email err); auto.
Qed.

Lemma cycle_listings :
  listingsSucceed
    (Scenario.google [] [] {[ "*" := Scenario.clientCycle ]} true).
Proof.
  intros domain srv email tok Hsrv. simpl in Hsrv.
  apply lookup_singleton_Some in Hsrv as [_ <-].
  unfold Scenario.clientCycle, Scenario.page.
  repeat destruct (String.eqb _ _); by eexists.
Qed.

Lemma cycle_routed :
  membersRouted
    (Scenario.google [] [] {[ "*" := Scenario.clientCycle ]} true)
    "a@example.com".
Proof.
  intros e _. exists Scenario.clientCycle. unfold findAdminService. simpl.
  destruct (_ !! extractDomainFromEmail e) as [srv|] eqn:E.
  - by apply lookup_singleton_Some in E as [_ <-].
  - reflexivity.
Qed.

Lemma getGroups_transitive_terminates_once_each_witness :
  ∃ r w',
    getGroups 4
      (Scenario.google [] [] {[ "*" := Scenario.clientCycle ]} true)
      "a@example.com" true {| checkedGroups := ∅; calls := [] |}
      = (Some r, w')
    ∧ (∀ gs, r = (gs, None) →
         NoDup gs
         ∧ (∀ g, g ∈ gs ↔
              reachable
                (Scenario.google [] [] {[ "*" := Scenario.clientCycle ]} true)
                "a@example.com" g)
         ∧ expansions (calls w')
           = reverse gs ++ "a@example.com" :: expansions [])
    ∧ ∃ gs, r = (gs, None).
Proof.
  assert (size ({[ "a@example.com"; "b@example.com" ]} : gset string) + 1 < 4)%nat
    as Hfuel by (vm_compute; lia).
  destruct (getGroups_transitive_terminates_once_each
              (Scenario.google [] [] {[ "*" := Scenario.clientCycle ]} true)
              "a@example.com" {[ "a@example.com"; "b@example.com" ]} 1 [] 4
              cycle_within cycle_bounded Hfuel)
    as (r & w' & Hrun & Hlist & Hreturns).
  exists r, w'. split_and!; [exact Hrun|exact Hlist|].
  exact (Hreturns cycle_listings cycle_routed).
Defined.

(** ** The pages of a listing, in order *)

(** The elements of [l] that are not in [V], each at its first occurrence. *)
Fixpoint firstNew (V : gset string) (l : list string) : list string :=
  match l with
  | [] => []
  | x :: l' =>
      if decide (x ∈ V) then firstNew V l'
      else x :: firstNew ({[x]} ∪ V) l'
  end.

(** The pages of the listing of [email] from the token [tok], each with the
    token it was asked with, when the listing ends without a failure within
    [fuel] pages. *)
Fixpoint pagesFrom (srv : admin.Service) (email : string) (fuel : nat)
    (tok : string) : option (list (string * admin.Groups)) :=
  match fuel with
  | O => None
  | S fuel' =>
      match srv email tok with
      | Err _ => None
      | Ok page =>
          if decide (admin.NextPageToken page = "") then Some [(tok, page)]
          else
            match pagesFrom srv email fuel' (admin.NextPageToken page) with
            | Some pages => Some ((tok, page) :: pages)
            | None => None
            end
      end
  end.

(** The groups of the pages, page after page. *)
Definition groupsOf (pages : list (string * admin.Groups)) : list string :=
  pages ≫= λ p, admin.Email <$> admin.Items p.2.

(** The calls that asked for the pages, the first page first. *)
Definition callsFor (email : string) (pages : list (string * admin.Groups))
  : list Call :=
  (λ p, CallGroupsList email p.1 None) <$> pages.

Lemma firstNew_set (V V' : gset string) l :
  V = V' → firstNew V l = firstNew V' l.
Proof. by intros ->. Qed.

Lemma firstNew_app V l1 l2 :
  firstNew V (l1 ++ l2)
  = firstNew V l1 ++ firstNew (V ∪ list_to_set l1) l2.
Proof.
  revert V. induction l1 as [|x l1 IH]; intros V; simpl.
  - apply firstNew_set. set_solver.
  - destruct (decide (x ∈ V)).
    + rewrite IH. f_equal. apply firstNew_set. set_solver.
    + rewrite IH. simpl. do 2 f_equal. apply firstNew_set. set_solver.
Qed.

Section Direct.
Variable rec : string → World → option (list string * option error) * World.

Lemma rangeGroups_flat gl ug w :
  ∃ w', rangeGroups rec false gl ug w
        = (Continue (ug ++ firstNew (checkedGroups w) (admin.Email <$> gl)),
           w')
        ∧ checkedGroups w'
          = checkedGroups w ∪ list_to_set (admin.Email <$> gl)
        ∧ calls w' = calls w.
Proof.
  revert ug w. induction gl as [|g gl IH]; intros ug w; simpl.
  - exists w. rewrite app_nil_r. split_and!; [done| |done]. set_solver.
  - destruct (decide _) as [Hin|Hout].
    + destruct (IH ug w) as (w' & -> & Hset & Hcalls).
      exists w'. split_and!; [done| |done]. rewrite Hset. set_solver.
    + destruct (IH (ug ++ [admin.Email g]) (mark (admin.Email g) w))
        as (w' & -> & Hset & Hcalls).
      exists w'. simpl in *. rewrite <-(assoc_L (++)).
      split_and!; [done| |done]. rewrite Hset. set_solver.
Qed.

Lemma pageLoop_flat srv email fuel tok ug w ug' w' :
  pageLoop rec false srv email fuel tok ug w = (Continue ug', w') →
  ∃ pages,
    pagesFrom srv email fuel tok = Some pages
    ∧ ug' = ug ++ firstNew (checkedGroups w) (groupsOf pages)
    ∧ checkedGroups w' = checkedGroups w ∪ list_to_set (groupsOf pages)
    ∧ calls w' = reverse (callsFor email pages) ++ calls w.
Proof.
  revert tok ug w. induction fuel as [|fuel IH]; intros tok ug w H;
    simpl in H; [done|]. simpl.
  destruct (srv email tok) as [page|err]; [|done].
  destruct (rangeGroups_flat (admin.Items page) ug
              (record (CallGroupsList email tok None) w))
    as (w1 & E & Hset1 & Hcalls1).
  rewrite E in H. simpl in Hset1, Hcalls1.
  destruct (decide _) as [|Hmore].
  - simplify_eq. exists [(tok, page)].
    unfold groupsOf, callsFor. simpl. rewrite app_nil_r.
    by split_and!.
  - apply IH in H as (pages & -> & -> & Hset & Hcalls).
    exists ((tok, page) :: pages).
    unfold groupsOf, callsFor in *. simpl.
    split_and!; [done| | |].
    + rewrite firstNew_app, <-(assoc_L (++)). do 2 f_equal.
      by apply firstNew_set.
    + rewrite Hset, Hset1, list_to_set_app_L. set_solver.
    + rewrite Hcalls, Hcalls1, reverse_cons, <-(assoc_L (++)). done.
Qed.
End Direct.

(** X5. Without expansion, a successful [getGroups] has asked the routed
    directory for the pages of the member's listing, the first with the
    empty token and each next one with the token of the page before, and
    for nothing else; it returns the groups of these pages in page order,
    without the groups visited at entry and without repetition. *)
Theorem getGroups_direct_pages_in_order
    (fuel : nat) (c : googleConnector) (email : string) (w : World)
    (gs : list string) :
  (getGroups (S fuel) c email false w).1 = Some (gs, None) →
  ∃ srv pages,
    findAdminService c (extractDomainFromEmail email) = Ok srv
    ∧ pagesFrom srv email fuel "" = Some pages
    ∧ gs = firstNew (checkedGroups w) (groupsOf pages)
    ∧ calls (getGroups (S fuel) c email false w).2
      = reverse (callsFor email pages) ++ calls w.
Proof.
  simpl. destruct (findAdminService _ _) as [srv|err]; [|done].
  destruct (pageLoop _ _ _ _ _ _ _ _) as [fl w1] eqn:E.
  destruct fl as [ug| |]; simpl; [|done..]. intros ?. simplify_eq.
  apply pageLoop_flat in E as (pages & ? & ? & _ & ?).
  by exists srv, pages.
Qed.

(** A listing in two pages, the second asked with the token [next]; eng is
    on both. *)
Definition clientPaged : admin.Service := λ userKey pageToken,
  if String.eqb userKey "alice@example.com" then
    if String.eqb pageToken "" then
      Ok {| admin.Items := [ {| admin.Email := "eng@example.com" |};
                             {| admin.Email := "ops@example.com" |} ];
            admin.NextPageToken := "next" |}
    else
      Ok {| admin.Items := [ {| admin.Email := "eng@example.com" |};
                             {| admin.Email := "all@example.com" |} ];
            admin.NextPageToken := "" |}
  else Scenario.page [].

Lemma getGroups_direct_pages_in_order_witness :
  ∃ srv pages,
    findAdminService
      (Scenario.google [] [] {[ "example.com" := clientPaged ]} false)
      (extractDomainFromEmail "alice@example.com") = Ok srv
    ∧ pagesFrom srv "alice@example.com" 2 "" = Some pages
    ∧ ["eng@example.com"; "ops@example.com"; "all@example.com"]
      = firstNew (checkedGroups Scenario.fresh) (groupsOf pages)
    ∧ calls
        (getGroups 3
           (Scenario.google [] [] {[ "example.com" := clientPaged ]} false)
           "alice@example.com" false Scenario.fresh).2
      = reverse (callsFor "alice@example.com" pages) ++ calls Scenario.fresh.
Proof.
  apply (getGroups_direct_pages_in_order 2
           (Scenario.google [] [] {[ "example.com" := clientPaged ]} false)
           "alice@example.com" Scenario.fresh
           ["eng@example.com"; "ops@example.com"; "all@example.com"]).
  vm_compute. reflexivity.
Defined.

(** * Further properties of routing *)

Lemma LastIndexByte_present s a :
  occurs a s = true → (0 ≤ LastIndexByte s a)%Z.
Proof.
  induction s as [|b s IH]; simpl; [done|].
  destruct (0 <=? LastIndexByte s a)%Z eqn:E.
  - apply Z.leb_le in E. lia.
  - apply Z.leb_gt in E. destruct (Ascii.eqb b a); simpl; [lia|].
    intros Hs. apply IH in Hs. lia.
Qed.

Lemma LastIndexByte_split s a :
  (0 ≤ LastIndexByte s a)%Z →
  ∃ l, s = (l ++ String a
              (sliceFrom (Z.to_nat (LastIndexByte s a + 1)) s))%string
       ∧ occurs a (sliceFrom (Z.to_nat (LastIndexByte s a + 1)) s) = false.
Proof.
  induction s as [|b s IH]; simpl; [lia|].
  destruct (0 <=? LastIndexByte s a)%Z eqn:E.
  - apply Z.leb_le in E. intros _.
    destruct (IH E) as (l & Hs & Hd).
    replace (Z.to_nat (1 + LastIndexByte s a + 1))
      with (S (Z.to_nat (LastIndexByte s a + 1))) by lia.
    exists (String b l). split; [|done]. exact (f_equal (String b) Hs).
  - apply Z.leb_gt in E. destruct (Ascii.eqb b a) eqn:Eb; [|lia].
    intros _. apply Ascii.eqb_eq in Eb as ->. exists EmptyString. simpl.
    split; [done|]. destruct (occurs a s) eqn:Ho; [|done].
    apply LastIndexByte_present in Ho. lia.
Qed.

(** X6. An email in which [@] occurs is made of a local part, an [@] and
    the domain that [extractDomainFromEmail] returns, and no [@] occurs in
    that domain. *)
Theorem extractDomainFromEmail_splits (email : string) :
  occurs "@" email = true →
  ∃ local,
    email = (local ++ String "@" (extractDomainFromEmail email))%string
    ∧ occurs "@" (extractDomainFromEmail email) = false.
Proof.
  intros Ho%LastIndexByte_present. unfold extractDomainFromEmail.
  destruct (0 <=? LastIndexByte email "@")%Z eqn:E.
  - by apply LastIndexByte_split.
  - apply Z.leb_gt in E. lia.
Qed.

Lemma extractDomainFromEmail_splits_witness :
  ∃ local,
    "a@b@example.com"
    = (local ++ String "@" (extractDomainFromEmail "a@b@example.com"))%string
    ∧ occurs "@" (extractDomainFromEmail "a@b@example.com") = false.
Proof.
  apply (extractDomainFromEmail_splits "a@b@example.com"). reflexivity.
Defined.

(** * Further properties of identity assembly *)

(** The groups of an assembled identity: none when no resolution is done,
    and else what the resolution returned, kept to the whitelist, of which
    something must remain, when there is a whitelist. *)
Definition groupsOutcome (fuel : nat) (c : googleConnector)
    (s : connector.Scopes) (email : string) (log : list Call)
    (assigned : list string) : Prop :=
  if connector.Groups s && (0 <? size (adminSrv c))%nat then
    ∃ R,
      (getGroups fuel c email (fetchTransitiveGroupMembership c)
         {| checkedGroups := ∅; calls := log |}).1 = Some (R, None)
      ∧ if (0 <? List.length (groups c))%nat then
          assigned = Filter R (groups c) ∧ assigned ≠ []
        else assigned = R
  else assigned = [].

Lemma createIdentity_success_inv fuel c identity s token log identity' :
  (createIdentity fuel c identity s token log).1 = Some (identity', None) →
  ∃ rawIDToken idToken claims assigned,
    oauth2.Extra token "id_token" = oauth2.Str rawIDToken
    ∧ verifier c rawIDToken = Ok idToken
    ∧ oidc.Claims idToken = Ok claims
    ∧ domainAllowed (hostedDomains c) (oidc.HostedDomain claims)
    ∧ groupsOutcome fuel c s (oidc.Email claims)
        (CallVerify rawIDToken :: log) assigned
    ∧ identity' = assembled token idToken claims assigned.
Proof.
  unfold createIdentity, groupsOutcome.
  destruct (oauth2.Extra token "id_token") as [|raw|] eqn:EX; [done| |done].
  destruct (verifier c raw) as [idToken|?] eqn:EV; [|done].
  destruct (oidc.Claims idToken) as [claims|?] eqn:EC; [|done].
  destruct (_ && negb _) eqn:ED; [done|]. apply domain_check_spec in ED.
  intros H. exists raw, idToken, claims.
  destruct (connector.Groups s && _) eqn:EG.
  - destruct (getGroups _ _ _ _ _) as [[[R [err|]]|] w'] eqn:E; [done| |done].
    destruct (0 <? List.length (groups c))%nat eqn:EW.
    + destruct (List.length (Filter R (groups c)) =? 0)%nat eqn:EF; [done|].
      simpl in H. simplify_eq. exists (Filter R (groups c)).
      split_and!; [done..| |done]. exists R. split; [done|].
      split; [done|]. intros Hnil. by rewrite Hnil in EF.
    + simpl in H. simplify_eq. exists R.
      split_and!; [done..| |done]. by exists R.
  - simpl in H. simplify_eq. exists []. by split_and!.
Qed.

(** The identity alice obtained at login. *)
Definition aliceIdentity : connector.Identity :=
  {| connector.UserID := "alice-subject";
     connector.Username := "Alice";
     connector.Email := "alice@example.com";
     connector.EmailVerified := true;
     connector.ConnectorData := list_byte_of_string "first";
     connector.Groups' := ["eng@example.com"] |}.

(** X7. Identity assembly succeeds only for a token response that carries
    an ID token which the verifier accepts, whose claims decode and whose
    hosted domain passes the whitelist; the subject, name, email and
    verified flag of the identity are those of that token. *)
Theorem createIdentity_success_is_verified
    (fuel : nat) (c : googleConnector) (identity : connector.Identity)
    (s : connector.Scopes) (token : oauth2.Token) (log : list Call)
    (identity' : connector.Identity) :
  (createIdentity fuel c identity s token log).1 = Some (identity', None) →
  ∃ rawIDToken idToken claims,
    oauth2.Extra token "id_token" = oauth2.Str rawIDToken
    ∧ verifier c rawIDToken = Ok idToken
    ∧ oidc.Claims idToken = Ok claims
    ∧ domainAllowed (hostedDomains c) (oidc.HostedDomain claims)
    ∧ connector.UserID identity' = oidc.Subject idToken
    ∧ connector.Username identity' = oidc.Username claims
    ∧ connector.Email identity' = oidc.Email claims
    ∧ connector.EmailVerified identity' = oidc.EmailVerified claims.
Proof.
  intros (raw & idToken & claims & assigned & ? & ? & ? & ? & _ & ->)
    %createIdentity_success_inv.
  exists raw, idToken, claims. by split_and!.
Qed.

Lemma createIdentity_success_is_verified_witness :
  ∃ rawIDToken idToken claims,
    oauth2.Extra (Scenario.response "first") "id_token"
    = oauth2.Str rawIDToken
    ∧ verifier (Scenario.google ["example.com"] [] ∅ false) rawIDToken
      = Ok idToken
    ∧ oidc.Claims idToken = Ok claims
    ∧ domainAllowed
        (hostedDomains (Scenario.google ["example.com"] [] ∅ false))
        (oidc.HostedDomain claims)
    ∧ connector.UserID
        (assembled (Scenario.response "first")
           {| oidc.Subject := "alice-subject";
              oidc.Claims := Ok Scenario.aliceClaims |}
           Scenario.aliceClaims []) = oidc.Subject idToken
    ∧ connector.Username
        (assembled (Scenario.response "first")
           {| oidc.Subject := "alice-subject";
              oidc.Claims := Ok Scenario.aliceClaims |}
           Scenario.aliceClaims []) = oidc.Username claims
    ∧ connector.Email
        (assembled (Scenario.response "first")
           {| oidc.Subject := "alice-subject";
              oidc.Claims := Ok Scenario.aliceClaims |}
           Scenario.aliceClaims []) = oidc.Email claims
    ∧ connector.EmailVerified
        (assembled (Scenario.response "first")
           {| oidc.Subject := "alice-subject";
              oidc.Claims := Ok Scenario.aliceClaims |}
           Scenario.aliceClaims []) = oidc.EmailVerified claims.
Proof.
  apply (createIdentity_success_is_verified 0
           (Scenario.google ["example.com"] [] ∅ false) connector.zero
           Scenario.withGroups (Scenario.response "first") []).
  vm_compute. reflexivity.
Defined.

(** X8. The groups of a successfully assembled identity: when the groups
    scope is requested, a directory client exists and a whitelist is
    configured, they are not empty and all of them are in the whitelist;
    when the scope is not requested or no directory client exists, there
    are none. *)
Theorem createIdentity_success_groups
    (fuel : nat) (c : googleConnector) (identity : connector.Identity)
    (s : connector.Scopes) (token : oauth2.Token) (log : list Call)
    (identity' : connector.Identity) :
  (createIdentity fuel c identity s token log).1 = Some (identity', None) →
  (connector.Groups s = true → (0 < size (adminSrv c))%nat →
   groups c ≠ [] →
   connector.Groups' identity' ≠ []
   ∧ ∀ g, g ∈ connector.Groups' identity' → g ∈ groups c)
  ∧ (connector.Groups s = false ∨ size (adminSrv c) = 0%nat →
     connector.Groups' identity' = []).
Proof.
  intros (raw & idToken & claims & assigned & _ & _ & _ & _ & Hout & ->)
    %createIdentity_success_inv.
  unfold groupsOutcome in Hout. simpl. split.
  - intros Hs Hroute%Nat.ltb_lt Hlist. rewrite Hs, Hroute in Hout.
    simpl in Hout.
    destruct Hout as (R & _ & Hout).
    assert ((0 <? List.length (groups c))%nat = true) as Hw.
    { apply Nat.ltb_lt. destruct (groups c); [done|simpl; lia]. }
    rewrite Hw in Hout. destruct Hout as [-> ?]. split; [done|].
    by intros g [_ ?]%Filter_spec.
  - intros [Hs|Hr].
    + by rewrite Hs in Hout.
    + rewrite Hr, andb_false_r in Hout. done.
Qed.

Lemma createIdentity_success_groups_witness :
  (connector.Groups Scenario.withGroups = true →
   (0 < size (adminSrv
                (Scenario.google [] ["all@example.com"; "admins@example.com"]
                   {[ "example.com" := Scenario.clientX ]} true)))%nat →
   groups (Scenario.google [] ["all@example.com"; "admins@example.com"]
             {[ "example.com" := Scenario.clientX ]} true) ≠ [] →
   connector.Groups'
     (assembled (Scenario.response "first")
        {| oidc.Subject := "alice-subject";
           oidc.Claims := Ok Scenario.aliceClaims |}
        Scenario.aliceClaims ["all@example.com"]) ≠ []
   ∧ ∀ g,
       g ∈ connector.Groups'
             (assembled (Scenario.response "first")
                {| oidc.Subject := "alice-subject";
                   oidc.Claims := Ok Scenario.aliceClaims |}
                Scenario.aliceClaims ["all@example.com"]) →
       g ∈ groups
             (Scenario.google [] ["all@example.com"; "admins@example.com"]
                {[ "example.com" := Scenario.clientX ]} true))
  ∧ (connector.Groups Scenario.withGroups = false
     ∨ size (adminSrv
               (Scenario.google [] ["all@example.com"; "admins@example.com"]
                  {[ "example.com" := Scenario.clientX ]} true)) = 0%nat →
     connector.Groups'
       (assembled (Scenario.response "first")
          {| oidc.Subject := "alice-subject";
             oidc.Claims := Ok Scenario.aliceClaims |}
          Scenario.aliceClaims ["all@example.com"]) = []).
Proof.
  apply (createIdentity_success_groups 4
           (Scenario.google [] ["all@example.com"; "admins@example.com"]
              {[ "example.com" := Scenario.clientX ]} true)
           connector.zero Scenario.withGroups (Scenario.response "first") []).
  vm_compute. reflexivity.
Defined.

Lemma createIdentity_error_identity fuel c identity s token log identity' e :
  (createIdentity fuel c identity s token log).1 = Some (identity', Some e) →
  identity' = identity.
Proof.
  unfold createIdentity. intros H.
  repeat case_match; simpl in H; simplify_eq; reflexivity.
Qed.

(** X9. A failed assembly, refresh or callback changes nothing of the
    identity: [createIdentity] and [Refresh] return with the error the
    identity they were given, and [HandleCallback] the zero identity. *)
Theorem errors_return_the_identity_given :
  (∀ fuel c identity s token log identity' e,
     (createIdentity fuel c identity s token log).1
     = Some (identity', Some e) →
     identity' = identity)
  ∧ (∀ fuel c now s identity log identity' e,
       (Refresh fuel c now s identity log).1 = Some (identity', Some e) →
       identity' = identity)
  ∧ (∀ fuel c s r log identity' e,
       (HandleCallback fuel c s r log).1 = Some (identity', Some e) →
       identity' = connector.zero).
Proof.
  split_and!.
  - exact createIdentity_error_identity.
  - intros fuel c now s identity log identity' e. unfold Refresh.
    destruct (oauth2.TokenSource _ _) as [token|err].
    + apply createIdentity_error_identity.
    + simpl. intros ?. by simplify_eq.
  - intros fuel c s r log identity' e. unfold HandleCallback.
    destruct (negb _); [simpl; intros ?; by simplify_eq|].
    destruct (oauth2.Exchange _ _) as [token|err].
    + apply createIdentity_error_identity.
    + simpl. intros ?. by simplify_eq.
Qed.

Lemma errors_return_the_identity_given_witness :
  aliceIdentity = aliceIdentity.
Proof.
  apply (proj1 (proj2 errors_return_the_identity_given) 0
           (Scenario.google ["corp.example.org"] [] ∅ false) 7200%Z
           Scenario.withGroups aliceIdentity [] aliceIdentity
           (ErrUnexpectedHD "example.com")).
  vm_compute. reflexivity.
Defined.

(** ** The calls of a login *)

(** A call to the directory. *)
Definition isDirectoryCall (call : Call) : Prop :=
  match call with
  | CallGroupsList _ _ _ => True
  | _ => False
  end.

Section DirectoryCalls.
Variable rec : string → World → option (list string * option error) * World.
Variable ft : bool.

Hypothesis rec_calls : ∀ e w r w',
  rec e w = (r, w') →
  ∃ new, calls w' = new ++ calls w ∧ Forall isDirectoryCall new.

Lemma rangeGroups_calls gl ug w fl w' :
  rangeGroups rec ft gl ug w = (fl, w') →
  ∃ new, calls w' = new ++ calls w ∧ Forall isDirectoryCall new.
Proof.
  revert ug w. induction gl as [|g gl IH]; intros ug w H.
  - simpl in H. simplify_eq. by exists [].
  - range_step H; [by eauto|].
    destruct ft; simpl in H; [|by apply IH in H].
    destruct (rec _ _) as [[[tg [err|]]|] w2] eqn:E;
      apply rec_calls in E as (n1 & E1 & F1); simpl in E1.
    + simplify_eq. by exists n1.
    + apply IH in H as (n2 & E2 & F2). exists (n2 ++ n1).
      split; [by rewrite E2, E1, (assoc_L (++))|by apply Forall_app].
    + simplify_eq. by exists n1.
Qed.

Lemma pageLoop_calls srv email fuel tok ug w fl w' :
  pageLoop rec ft srv email fuel tok ug w = (fl, w') →
  ∃ new, calls w' = new ++ calls w ∧ Forall isDirectoryCall new.
Proof.
  revert tok ug w. induction fuel as [|fuel IH]; intros tok ug w H;
    simpl in H; [simplify_eq; by exists []|].
  destruct (srv email tok) as [page|err].
  - destruct (rangeGroups _ _ _ _ _) as [fl1 w1] eqn:E.
    apply rangeGroups_calls in E as (n1 & E1 & F1). simpl in E1.
    assert (∃ new, calls w1 = new ++ calls w ∧ Forall isDirectoryCall new)
      as Hw1.
    { exists (n1 ++ [CallGroupsList email tok None]).
      split; [by rewrite E1, <-(assoc_L (++))|].
      apply Forall_app. split; [done|]. by repeat constructor. }
    destruct fl1; [|by simplify_eq..].
    destruct (decide _); [by simplify_eq|].
    apply IH in H as (n2 & E2 & F2). destruct Hw1 as (n1' & E1' & F1').
    exists (n2 ++ n1').
    split; [by rewrite E2, E1', (assoc_L (++))|by apply Forall_app].
  - simplify_eq. eexists [_]. split; [done|]. by repeat constructor.
Qed.
End DirectoryCalls.

Lemma getGroups_calls fuel c email ft w r w' :
  getGroups fuel c email ft w = (r, w') →
  ∃ new, calls w' = new ++ calls w ∧ Forall isDirectoryCall new.
Proof.
  revert email w r w'. induction fuel as [|fuel IH]; intros email w r w' H;
    simpl in H; [simplify_eq; by exists []|].
  destruct (findAdminService _ _) as [srv|err]; [|simplify_eq; by exists []].
  destruct (pageLoop _ _ _ _ _ _ _ _) as [fl w1] eqn:E.
  apply pageLoop_calls in E; [|by eauto].
  destruct fl; by simplify_eq.
Qed.

(** What follows the call to the token endpoint: nothing, or one
    verification and then calls to the directory only. *)
Definition afterToken (rest : list Call) : Prop :=
  rest = []
  ∨ ∃ rawIDToken dir,
      rest = dir ++ [CallVerify rawIDToken] ∧ Forall isDirectoryCall dir.

Lemma createIdentity_calls fuel c identity s token log :
  ∃ rest, (createIdentity fuel c identity s token log).2 = rest ++ log
          ∧ afterToken rest.
Proof.
  unfold createIdentity, afterToken.
  destruct (oauth2.Extra token "id_token") as [|raw|];
    [exists []; split; [done|by left]|
    |exists []; split; [done|by left]].
  assert (∃ rest, CallVerify raw :: log = rest ++ log
                  ∧ (rest = [] ∨ ∃ rawIDToken dir,
                       rest = dir ++ [CallVerify rawIDToken]
                       ∧ Forall isDirectoryCall dir)) as Hverify.
  { exists [CallVerify raw]. split; [done|]. right. by exists raw, []. }
  destruct (verifier c raw) as [idToken|?]; [|done].
  destruct (oidc.Claims idToken) as [claims|?]; [|done].
  destruct (_ && negb _); [done|].
  destruct (connector.Groups s && _); [|done].
  destruct (getGroups _ _ _ _ _) as [r w'] eqn:E.
  apply getGroups_calls in E as (dir & Hdir & Fdir). simpl in Hdir.
  assert (∃ rest, calls w' = rest ++ log
                  ∧ (rest = [] ∨ ∃ rawIDToken dir,
                       rest = dir ++ [CallVerify rawIDToken]
                       ∧ Forall isDirectoryCall dir)) as Hcalls.
  { exists (dir ++ [CallVerify raw]).
    split; [by rewrite Hdir, <-(assoc_L (++))|]. right. by exists raw, dir. }
  destruct r as [[R [err|]]|]; [done| |done].
  by repeat case_match.
Qed.

(** X10. A callback without [error] parameter calls the token endpoint
    once, with the [code] parameter, before anything else; then it
    verifies at most one ID token, and after that it calls the directory
    only. *)
Theorem HandleCallback_call_order
    (fuel : nat) (c : googleConnector) (s : connector.Scopes) (r : Request)
    (log : list Call) :
  Get (Query r) "error" = "" →
  ∃ rest,
    (HandleCallback fuel c s r log).2
    = rest ++ CallExchange (Get (Query r) "code") :: log
    ∧ afterToken rest.
Proof.
  intros Herr. unfold HandleCallback. rewrite Herr. simpl.
  destruct (oauth2.Exchange _ _) as [token|err].
  - apply createIdentity_calls.
  - exists []. split; [done|by left].
Qed.

(** A callback with the code that the provider of the scenarios accepts. *)
Definition granted : Request := {| Query := {[ "code" := ["good"] ]} |}.

Lemma HandleCallback_call_order_witness :
  ∃ rest,
    (HandleCallback 4
       (Scenario.google [] [] {[ "example.com" := Scenario.clientX ]} true)
       Scenario.withGroups granted []).2
    = rest ++ CallExchange (Get (Query granted) "code") :: []
    ∧ afterToken rest.
Proof.
  apply (HandleCallback_call_order 4
           (Scenario.google [] [] {[ "example.com" := Scenario.clientX ]} true)
           Scenario.withGroups granted []).
  reflexivity.
Defined.

(** The calls of that login, the most recent first. *)
Example HandleCallback_calls_alice :
  (HandleCallback 4
     (Scenario.google [] [] {[ "example.com" := Scenario.clientX ]} true)
     Scenario.withGroups granted []).2
  = [CallGroupsList "all@example.com" "" None;
     CallGroupsList "eng@example.com" "" None;
     CallGroupsList "alice@example.com" "" None;
     CallVerify "signed";
     CallExchange "good"].
Proof. vm_compute. reflexivity. Qed.

(** X11. [Refresh] calls the token source once, with the text of the
    [ConnectorData] of the identity as refresh token, before anything else;
    then it verifies at most one ID token, and after that it calls the
    directory only. *)
Theorem Refresh_call_order
    (fuel : nat) (c : googleConnector) (now : Z) (s : connector.Scopes)
    (identity : connector.Identity) (log : list Call) :
  ∃ rest,
    (Refresh fuel c now s identity log).2
    = rest
      ++ CallTokenSource
           (string_of_list_byte (connector.ConnectorData identity)) :: log
    ∧ afterToken rest.
Proof.
  unfold Refresh. simpl.
  destruct (oauth2.TokenSource _ _) as [token|err].
  - apply createIdentity_calls.
  - exists []. split; [done|by left].
Qed.

(** X12. The refresh token survives the login: after a successful
    callback, whose exchange returned some token, every later [Refresh] of
    the identity obtained presents the refresh token of that token to the
    token source. *)
Theorem Refresh_presents_token_of_login
    (fuel : nat) (c : googleConnector) (s : connector.Scopes) (r : Request)
    (log : list Call) (identity : connector.Identity) :
  (HandleCallback fuel c s r log).1 = Some (identity, None) →
  ∃ token,
    oauth2.Exchange (oauth2Config c) (Get (Query r) "code") = Ok token
    ∧ ∀ fuel' now s' log',
        ∃ rest,
          (Refresh fuel' c now s' identity log').2
          = rest ++ CallTokenSource (oauth2.RefreshToken token) :: log'.
Proof.
  unfold HandleCallback. destruct (negb _); [done|].
  destruct (oauth2.Exchange _ _) as [token|err]; [|done].
  intros Hdata%createIdentity_ConnectorData. exists token. split; [done|].
  intros fuel' now s' log'.
  destruct (createIdentity_calls fuel' c identity s'
              match oauth2.TokenSource (oauth2Config c) (expired now identity)
              with Ok t => t | Err _ => token end
              (CallTokenSource (oauth2.RefreshToken token) :: log'))
    as (rest & Hrest & _).
  unfold Refresh. fold (expired now identity). simpl.
  rewrite Hdata, string_of_list_byte_of_string.
  destruct (oauth2.TokenSource _ _) as [t|err]; [by exists rest|by exists []].
Qed.

Lemma Refresh_presents_token_of_login_witness :
  ∃ token,
    oauth2.Exchange
      (oauth2Config (Scenario.google [] [] ∅ false))
      (Get (Query granted) "code") = Ok token
    ∧ ∀ fuel' now s' log',
        ∃ rest,
          (Refresh fuel' (Scenario.google [] [] ∅ false) now s'
             {| connector.UserID := "alice-subject";
                connector.Username := "Alice";
                connector.Email := "alice@example.com";
                connector.EmailVerified := true;
                connector.ConnectorData := list_byte_of_string "first";
                connector.Groups' := [] |} log').2
          = rest ++ CallTokenSource (oauth2.RefreshToken token) :: log'.
Proof.
  apply (Refresh_presents_token_of_login 0 (Scenario.google [] [] ∅ false)
           Scenario.withGroups granted []).
  vm_compute. reflexivity.
Defined.

(** * Further properties of the login URL *)

Lemma loginOpts_offline c s :
  (oauth2.AccessTypeOffline ∈ loginOpts c s
   ↔ connector.OfflineAccess s = true)
  ∧ (oauth2.SetAuthURLParam "prompt" "consent" ∈ loginOpts c s
     ↔ connector.OfflineAccess s = true).
Proof.
  unfold loginOpts.
  destruct (hostedDomains c) as [|d [|d' rest]],
           (connector.OfflineAccess s); simpl;
    (split; (split; [intros Hin|intros Ht])); try done;
    try (by repeat constructor);
    repeat (apply elem_of_cons in Hin as [Hin|Hin]; [discriminate|]);
    by apply elem_of_nil in Hin.
Qed.

(** X13. [LoginURL] fails exactly when the callback URL is not the
    configured one, and then it returns no URL; when it succeeds, the
    options of the URL ask for offline access, and for the consent prompt,
    exactly when the scopes request offline access. *)
Theorem LoginURL_callback_and_offline
    (c : googleConnector) (s : connector.Scopes) (callbackURL state : string) :
  ((LoginURL c s callbackURL state).2 = None ↔ callbackURL = redirectURI c)
  ∧ (callbackURL ≠ redirectURI c →
     LoginURL c s callbackURL state
     = ("", Some (ErrCallbackMismatch callbackURL (redirectURI c))))
  ∧ (oauth2.AccessTypeOffline ∈ loginOpts c s
     ↔ connector.OfflineAccess s = true)
  ∧ (oauth2.SetAuthURLParam "prompt" "consent" ∈ loginOpts c s
     ↔ connector.OfflineAccess s = true).
Proof.
  split; [|split; [|apply loginOpts_offline]]; unfold LoginURL;
    destruct (String.eqb (redirectURI c) callbackURL) eqn:E; simpl.
  - by apply String.eqb_eq in E.
  - apply String.eqb_neq in E. split; [done|congruence].
  - apply String.eqb_eq in E. congruence.
  - done.
Qed.

(** * Opening a connector (lines 36-138 and 359-391)

    The libraries reached while a connector is opened are oracles too:
    provider discovery, the credentials of the process and of a file, the
    parsing of credentials and the construction of a directory client. *)

(** [Config] (lines 37-67).  A nil map and an empty map are not told
    apart. *)
Record Config : Type := {
  ClientID : string;
  ClientSecret : string;
  RedirectURI : string;
  Scopes : list string;
  HostedDomains : list string;
  Groups : list string;
  ServiceAccountFilePath : string;
  AdminEmail : string;
  DomainToAdminEmail : gmap string string;
  FetchTransitiveGroupMembership : bool
}.

(** The assignment [c.DomainToAdminEmail[key] = value] on the
    configuration. *)
Definition setDomainToAdminEmail (key value : string) (c : Config) : Config :=
  {| ClientID := ClientID c; ClientSecret := ClientSecret c;
     RedirectURI := RedirectURI c; Scopes := Scopes c;
     HostedDomains := HostedDomains c; Groups := Groups c;
     ServiceAccountFilePath := ServiceAccountFilePath c;
     AdminEmail := AdminEmail c;
     DomainToAdminEmail := <[key := value]> (DomainToAdminEmail c);
     FetchTransitiveGroupMembership := FetchTransitiveGroupMembership c |}.

Module jwt.
(** [jwt.Config]: the subject to impersonate, and the rest of what the
    credentials hold. *)
Record Config : Type := {
  Subject : string;
  Scopes : list string;
  Key : list Byte.byte
}.
End jwt.

(** [provider.Endpoint()], seen through the methods of [oauth2.Config] that
    go through it: what they do for the client data they are given. *)
Record Endpoint : Type := {
  exchangeAt :
    string → string → string → string → result oauth2.Token;
  tokenSourceAt :
    string → string → oauth2.Token → result oauth2.Token;
  authCodeURLAt :
    string → string → list string →
    string → list oauth2.AuthCodeOption → string
}.

(** [*oidc.Provider]: its endpoint, and the verifier it makes for a client
    identifier. *)
Record Provider : Type := {
  ProviderEndpoint : Endpoint;
  ProviderVerifier : string → string → result oidc.IDToken
}.

Record Platform : Type := {
  (** [oidc.NewProvider(ctx, issuer)] *)
  NewProvider : string → result Provider;
  (** [google.FindDefaultCredentials(ctx)], its [JSON] *)
  FindDefaultCredentials : result (list Byte.byte);
  (** [os.ReadFile(path)] *)
  ReadFile : string → result (list Byte.byte);
  (** [google.JWTConfigFromJSON(json, scope)] *)
  JWTConfigFromJSON : list Byte.byte → string → result jwt.Config;
  (** [admin.NewService(ctx, option.WithHTTPClient(config.Client(ctx)))] *)
  NewService : jwt.Config → result admin.Service
}.

(** [admin.AdminDirectoryGroupReadonlyScope] *)
Definition AdminDirectoryGroupReadonlyScope : string :=
  "https://www.googleapis.com/auth/admin.directory.group.readonly".

(** [oidc.ScopeOpenID] *)
Definition ScopeOpenID : string := "openid".

(** The errors of [createDirectoryService]. *)
Inductive serviceError : Type :=
| ErrDefaultCredentials (cause : error)
    (* "failed to fetch application default credentials: %w" *)
| ErrReadCredentials (cause : error)
    (* "error reading credentials from file: %v" *)
| ErrParseCredentials (cause : error)
    (* "unable to parse client secret file to config: %v" *)
| ErrNewService (cause : error).
    (* the error of admin.NewService, as it is *)

(** The errors of [Open]. *)
Inductive openError : Type :=
| ErrGetProvider (cause : error)
    (* "failed to get provider: %v" *)
| ErrDirectoryRequiresAdmin
    (* "directory service requires the domainToAdminEmail option to be
       configured" *)
| ErrCreateDirectoryService (cause : serviceError).
    (* "could not create directory service: %v" *)

(** [createDirectoryService] (lines 362-391). *)
Definition createDirectoryService (p : Platform)
    (serviceAccountFilePath email : string) : serviceError + admin.Service :=
  let credentials : serviceError + list Byte.byte :=
    if String.eqb serviceAccountFilePath "" then
      match FindDefaultCredentials p with
      | Err err => inl (ErrDefaultCredentials err)
      | Ok json => inr json
      end
    else
      match ReadFile p serviceAccountFilePath with
      | Err err => inl (ErrReadCredentials err)
      | Ok json => inr json
      end in
  match credentials with
  | inl err => inl err
  | inr jsonCredentials =>
      match
        JWTConfigFromJSON p jsonCredentials AdminDirectoryGroupReadonlyScope
      with
      | Err err => inl (ErrParseCredentials err)
      | Ok config =>
          let config :=
            if negb (String.eqb email "") then
              {| jwt.Subject := email; jwt.Scopes := jwt.Scopes config;
                 jwt.Key := jwt.Key config |}
            else config in
          match NewService p config with
          | Err err => inl (ErrNewService err)
          | Ok srv => inr srv
          end
      end
  end.

(** The loop [for domain, adminEmail := range c.DomainToAdminEmail]
    (lines 105-113), over the entries in the order in which the map yields
    them. *)
Fixpoint rangeDomainToAdminEmail (p : Platform)
    (serviceAccountFilePath : string) (entries : list (string * string))
    (adminSrv : gmap string admin.Service)
    : openError + gmap string admin.Service :=
  match entries with
  | [] => inr adminSrv
  | (domain, adminEmail) :: rest =>
      match createDirectoryService p serviceAccountFilePath adminEmail with
      | inl err => inl (ErrCreateDirectoryService err)
      | inr srv =>
          rangeDomainToAdminEmail p serviceAccountFilePath rest
            (<[domain := srv]> adminSrv)
      end
  end.

(** [slices.Contains] on strings. *)
Fixpoint Contains (l : list string) (x : string) : bool :=
  match l with
  | [] => false
  | y :: l' => if String.eqb y x then true else Contains l' x
  end.

(** [Open] (lines 70-138).  It returns, with its result, the configuration
    as the call leaves it.  [order] is the order in which a [range] yields
    the entries of a map, which the language leaves open. *)
Definition Open (p : Platform)
    (order : gmap string string → list (string * string)) (c : Config)
    : Config * (openError + googleConnector) :=
  let c :=
    if negb (String.eqb (AdminEmail c) "") then
      setDomainToAdminEmail wildcardDomainToAdminEmail (AdminEmail c) c
    else c in
  match NewProvider p issuerURL with
  | Err err => (c, inl (ErrGetProvider err))
  | Ok provider =>
      let scopes := [ScopeOpenID] in
      let scopes :=
        if (0 <? List.length (Scopes c))%nat then scopes ++ Scopes c
        else scopes ++ ["profile"; "email"] in
      let adminSrv : gmap string admin.Service := ∅ in
      if (size (DomainToAdminEmail c) =? 0)%nat
         && negb (String.eqb (ServiceAccountFilePath c) "")
      then (c, inl ErrDirectoryRequiresAdmin)
      else
        let built :=
          if negb (String.eqb (ServiceAccountFilePath c) "")
             && (0 <? size (DomainToAdminEmail c))%nat
             || Contains scopes "groups"
          then
            rangeDomainToAdminEmail p (ServiceAccountFilePath c)
              (order (DomainToAdminEmail c)) adminSrv
          else inr adminSrv in
        match built with
        | inl err => (c, inl err)
        | inr adminSrv =>
            let clientID := ClientID c in
            (c,
             inr {| redirectURI := RedirectURI c;
                    oauth2Config :=
                      {| oauth2.ClientID := clientID;
                         oauth2.ClientSecret := ClientSecret c;
                         oauth2.Scopes := scopes;
                         oauth2.RedirectURL := RedirectURI c;
                         oauth2.Exchange :=
                           exchangeAt (ProviderEndpoint provider) clientID
                             (ClientSecret c) (RedirectURI c);
                         oauth2.TokenSource :=
                           tokenSourceAt (ProviderEndpoint provider)
                             clientID (ClientSecret c);
                         oauth2.AuthCodeURL :=
                           authCodeURLAt (ProviderEndpoint provider)
                             clientID (RedirectURI c) scopes |};
                    verifier := ProviderVerifier provider clientID;
                    hostedDomains := HostedDomains c;
                    groups := Groups c;
                    serviceAccountFilePath := ServiceAccountFilePath c;
                    domainToAdminEmail := DomainToAdminEmail c;
                    fetchTransitiveGroupMembership :=
                      FetchTransitiveGroupMembership c;
                    adminSrv := adminSrv |})
        end
  end.

(** ** Properties of opening *)

(** The configuration after the deprecated [AdminEmail] has been moved to
    the wildcard entry (lines 71-78). *)
Definition migrate (c : Config) : Config :=
  if negb (String.eqb (AdminEmail c) "") then
    setDomainToAdminEmail wildcardDomainToAdminEmail (AdminEmail c) c
  else c.

(** The scopes a connector asks for (lines 87-92). *)
Definition requestedScopes (c : Config) : list string :=
  ScopeOpenID
  :: (if (0 <? List.length (Scopes c))%nat then Scopes c
      else ["profile"; "email"]).

(** The test of line 104: directory clients are created. *)
Definition createsClients (c : Config) : bool :=
  negb (String.eqb (ServiceAccountFilePath c) "")
  && (0 <? size (DomainToAdminEmail (migrate c)))%nat
  || Contains (requestedScopes c) "groups".

(** [order] yields every entry of a map once. *)
Definition fairOrder (order : gmap string string → list (string * string))
  : Prop :=
  ∀ m, order m ≡ₚ map_to_list m.

Lemma migrate_fields c :
  ServiceAccountFilePath (migrate c) = ServiceAccountFilePath c
  ∧ Scopes (migrate c) = Scopes c
  ∧ HostedDomains (migrate c) = HostedDomains c
  ∧ Groups (migrate c) = Groups c.
Proof. unfold migrate. by destruct (negb _). Qed.

Lemma fairOrder_lookup order m d e :
  fairOrder order → (d, e) ∈ order m ↔ m !! d = Some e.
Proof. intros Hfair. by rewrite (Hfair m), elem_of_map_to_list. Qed.

Lemma fairOrder_NoDup order m : fairOrder order → NoDup (order m).*1.
Proof. intros Hfair. rewrite (Hfair m). apply NoDup_fst_map_to_list. Qed.

Section Range.
Variable p : Platform.
Variable path : string.

Lemma rangeDomainToAdminEmail_success entries acc res :
  rangeDomainToAdminEmail p path entries acc = inr res →
  NoDup entries.*1 →
  (∀ d e, (d, e) ∈ entries →
          ∃ srv, createDirectoryService p path e = inr srv
                 ∧ res !! d = Some srv)
  ∧ (∀ d, d ∉ entries.*1 → res !! d = acc !! d).
Proof.
  revert acc. induction entries as [|[d0 e0] rest IH]; intros acc H Hdup.
  - simpl in H. simplify_eq. split; [by intros ? ? ?%elem_of_nil|done].
  - simpl in H, Hdup. apply NoDup_cons in Hdup as [Hd0 Hdup].
    destruct (createDirectoryService p path e0) as [err|srv0] eqn:E; [done|].
    destruct (IH _ H Hdup) as [Hin Hout]. split.
    + intros d e [?|?]%elem_of_cons; [|by eauto].
      simplify_eq. exists srv0. split; [done|].
      by rewrite (Hout _ Hd0), lookup_insert_eq.
    + intros d [Hne Hd]%not_elem_of_cons.
      by rewrite (Hout _ Hd), lookup_insert_ne.
Qed.

Lemma rangeDomainToAdminEmail_failure entries acc err :
  rangeDomainToAdminEmail p path entries acc = inl err →
  ∃ d e cause,
    (d, e) ∈ entries
    ∧ createDirectoryService p path e = inl cause
    ∧ err = ErrCreateDirectoryService cause.
Proof.
  revert acc. induction entries as [|[d0 e0] rest IH]; intros acc H;
    simpl in H; [done|].
  destruct (createDirectoryService p path e0) as [cause|srv0] eqn:E.
  - simplify_eq. exists d0, e0, cause. split_and!; [left|done..].
  - apply IH in H as (d & e & cause & ? & ? & ?).
    exists d, e, cause. split_and!; [by right|done..].
Qed.
End Range.

Lemma Open_success_inv p order c conn :
  (Open p order c).2 = inr conn →
  ∃ provider,
    NewProvider p issuerURL = Ok provider
    ∧ (size (DomainToAdminEmail (migrate c)) =? 0)%nat
      && negb (String.eqb (ServiceAccountFilePath c) "") = false
    ∧ (if createsClients c then
         rangeDomainToAdminEmail p (ServiceAccountFilePath c)
           (order (DomainToAdminEmail (migrate c))) ∅ = inr (adminSrv conn)
       else adminSrv conn = ∅)
    ∧ domainToAdminEmail conn = DomainToAdminEmail (migrate c)
    ∧ oauth2.Scopes (oauth2Config conn) = requestedScopes c
    ∧ hostedDomains conn = HostedDomains c
    ∧ groups conn = Groups c.
Proof.
  unfold Open, createsClients, requestedScopes. fold (migrate c).
  destruct (migrate_fields c) as (-> & -> & -> & ->).
  destruct (NewProvider p issuerURL) as [provider|err]; [|done].
  destruct (_ && negb _) eqn:Ereq; [done|].
  destruct (0 <? List.length (Scopes c))%nat; simpl;
    (destruct (_ || _) eqn:Ecreates;
     [destruct (rangeDomainToAdminEmail _ _ _ _) as [err|built] eqn:Ebuilt;
        [done|]|]);
    simpl; intros ?; simplify_eq; exists provider; simpl; by split_and!.
Qed.

Lemma rangeDomainToAdminEmail_total p path entries acc :
  (∀ d e, (d, e) ∈ entries →
          ∃ srv, createDirectoryService p path e = inr srv) →
  ∃ res, rangeDomainToAdminEmail p path entries acc = inr res.
Proof.
  intros Hall.
  destruct (rangeDomainToAdminEmail p path entries acc) as [err|res] eqn:E;
    [|by exists res].
  apply rangeDomainToAdminEmail_failure in E as (d & e & cause & Hin & Hc & _).
  destruct (Hall _ _ Hin) as [srv Hsrv]. congruence.
Qed.

Lemma createDirectoryService_inv p path email srv :
  createDirectoryService p path email = inr srv →
  ∃ json config,
    (if String.eqb path "" then FindDefaultCredentials p = Ok json
     else ReadFile p path = Ok json)
    ∧ JWTConfigFromJSON p json AdminDirectoryGroupReadonlyScope = Ok config
    ∧ NewService p
        (if String.eqb email "" then config
         else {| jwt.Subject := email; jwt.Scopes := jwt.Scopes config;
                 jwt.Key := jwt.Key config |}) = Ok srv.
Proof.
  unfold createDirectoryService. intros H.
  destruct (String.eqb path "").
  - destruct (FindDefaultCredentials p) as [json|?] eqn:Ej; [|done].
    destruct (JWTConfigFromJSON p _ _) as [config|?] eqn:Ec; [|done].
    exists json, config. split_and!; [done..|].
    destruct (String.eqb email ""); simpl in H;
      by destruct (NewService p _); simplify_eq.
  - destruct (ReadFile p path) as [json|?] eqn:Ej; [|done].
    destruct (JWTConfigFromJSON p _ _) as [config|?] eqn:Ec; [|done].
    exists json, config. split_and!; [done..|].
    destruct (String.eqb email ""); simpl in H;
      by destruct (NewService p _); simplify_eq.
Qed.

Lemma Open_routes p order c conn :
  fairOrder order →
  (Open p order c).2 = inr conn →
  createsClients c = true →
  ∀ domain,
    match DomainToAdminEmail (migrate c) !! domain with
    | Some adminEmail =>
        ∃ srv,
          createDirectoryService p (ServiceAccountFilePath c) adminEmail
          = inr srv
          ∧ adminSrv conn !! domain = Some srv
    | None => adminSrv conn !! domain = None
    end.
Proof.
  intros Hfair (provider & _ & _ & Hbuilt & _)%Open_success_inv Hcreates
    domain.
  rewrite Hcreates in Hbuilt.
  apply rangeDomainToAdminEmail_success in Hbuilt as [Hin Hout];
    [|by apply fairOrder_NoDup].
  destruct (DomainToAdminEmail (migrate c) !! domain) as [adminEmail|] eqn:E.
  - apply Hin. by apply fairOrder_lookup.
  - rewrite Hout; [done|].
    intros ((d & e) & -> & Hde)%list_elem_of_fmap.
    apply (fairOrder_lookup _ _ _ _ Hfair) in Hde. simpl in E. congruence.
Qed.

(** ** Scenarios of opening *)

Definition endpointX : Endpoint :=
  {| exchangeAt := λ _ _ _, oauth2.Exchange Scenario.provider;
     tokenSourceAt := λ _ _, oauth2.TokenSource Scenario.provider;
     authCodeURLAt := λ _ _ _, oauth2.AuthCodeURL Scenario.provider |}.

(** A platform without default credentials, with one credentials file, and
    whose directory accepts one super admin. *)
Definition platformX : Platform :=
  {| NewProvider := λ issuer,
       if String.eqb issuer issuerURL then
         Ok {| ProviderEndpoint := endpointX;
               ProviderVerifier := λ _, Scenario.verify |}
       else Err (ExternalError "discovery failed");
     FindDefaultCredentials := Err (ExternalError "no default credentials");
     ReadFile := λ path,
       if String.eqb path "/etc/dex/sa.json" then Ok (list_byte_of_string "{}")
       else Err (ExternalError "no such file");
     JWTConfigFromJSON := λ json scope,
       Ok {| jwt.Subject := ""; jwt.Scopes := [scope]; jwt.Key := json |};
     NewService := λ config,
       if String.eqb (jwt.Subject config) "admin@example.com" then
         Ok Scenario.clientX
       else Err (ExternalError "not a super admin") |}.

Definition configWith (scopes : list string) (path adminEmail : string)
    (domains : gmap string string) : Config :=
  {| ClientID := "id"; ClientSecret := "secret";
     RedirectURI := "https://dex.example.com/callback";
     Scopes := scopes; HostedDomains := []; Groups := [];
     ServiceAccountFilePath := path; AdminEmail := adminEmail;
     DomainToAdminEmail := domains;
     FetchTransitiveGroupMembership := true |}.

(** The connector opened from the platform above, with the given scopes,
    path, admin map and directory clients. *)
Definition openedWith (scopes : list string) (path : string)
    (domains : gmap string string) (routes : gmap string admin.Service)
    : googleConnector :=
  {| redirectURI := "https://dex.example.com/callback";
     oauth2Config :=
       {| oauth2.ClientID := "id"; oauth2.ClientSecret := "secret";
          oauth2.Scopes := scopes;
          oauth2.RedirectURL := "https://dex.example.com/callback";
          oauth2.Exchange := oauth2.Exchange Scenario.provider;
          oauth2.TokenSource := oauth2.TokenSource Scenario.provider;
          oauth2.AuthCodeURL := oauth2.AuthCodeURL Scenario.provider |};
     verifier := Scenario.verify;
     hostedDomains := [];
     groups := [];
     serviceAccountFilePath := path;
     domainToAdminEmail := domains;
     fetchTransitiveGroupMembership := true;
     adminSrv := routes |}.

Lemma map_to_list_fair : fairOrder map_to_list.
Proof. by intros m. Qed.

(** Opening with the deprecated admin email and a credentials file. *)
Example Open_legacy :
  (Open platformX map_to_list
     (configWith [] "/etc/dex/sa.json" "admin@example.com" ∅)).2
  = inr (openedWith ["openid"; "profile"; "email"] "/etc/dex/sa.json"
           {[ "*" := "admin@example.com" ]}
           {[ "*" := Scenario.clientX ]}).
Proof. vm_compute. reflexivity. Qed.

(** Opening with an admin map but neither credentials file nor [groups]
    scope: no directory client. *)
Example Open_plain :
  (Open platformX map_to_list
     (configWith [] "" "" {[ "example.com" := "admin@example.com" ]})).2
  = inr (openedWith ["openid"; "profile"; "email"] ""
           {[ "example.com" := "admin@example.com" ]} ∅).
Proof. vm_compute. reflexivity. Qed.

(** X14. A connector that [Open] returns carries the admin map of the
    configuration, with the deprecated admin email under the wildcard, and
    its directory clients follow that map whatever the order in which the
    map is walked: when clients are created, every domain of the map has the
    client created for its admin and no other domain has one; when they are
    not, the connector has no client. *)
Theorem Open_routes_follow_configuration
    (p : Platform) (order : gmap string string → list (string * string))
    (c : Config) (conn : googleConnector) :
  fairOrder order →
  (Open p order c).2 = inr conn →
  domainToAdminEmail conn = DomainToAdminEmail (migrate c)
  ∧ (createsClients c = true →
     ∀ domain,
       match DomainToAdminEmail (migrate c) !! domain with
       | Some adminEmail =>
           ∃ srv,
             createDirectoryService p (ServiceAccountFilePath c) adminEmail
             = inr srv
             ∧ adminSrv conn !! domain = Some srv
       | None => adminSrv conn !! domain = None
       end)
  ∧ (createsClients c = false → adminSrv conn = ∅).
Proof.
  intros Hfair Hopen. split_and!.
  - by apply Open_success_inv in Hopen as (? & _ & _ & _ & ? & _).
  - intros Hcreates. by eapply Open_routes.
  - intros Hcreates.
    apply Open_success_inv in Hopen as (? & _ & _ & Hbuilt & _).
    by rewrite Hcreates in Hbuilt.
Qed.

Lemma Open_routes_follow_configuration_witness :
  domainToAdminEmail
    (openedWith ["openid"; "profile"; "email"] "/etc/dex/sa.json"
       {[ "*" := "admin@example.com" ]} {[ "*" := Scenario.clientX ]})
  = DomainToAdminEmail
      (migrate (configWith [] "/etc/dex/sa.json" "admin@example.com" ∅))
  ∧ (createsClients (configWith [] "/etc/dex/sa.json" "admin@example.com" ∅)
     = true →
     ∀ domain,
       match
         DomainToAdminEmail
           (migrate (configWith [] "/etc/dex/sa.json" "admin@example.com" ∅))
         !! domain
       with
       | Some adminEmail =>
           ∃ srv,
             createDirectoryService platformX
               (ServiceAccountFilePath
                  (configWith [] "/etc/dex/sa.json" "admin@example.com" ∅))
               adminEmail = inr srv
             ∧ adminSrv
                 (openedWith ["openid"; "profile"; "email"]
                    "/etc/dex/sa.json" {[ "*" := "admin@example.com" ]}
                    {[ "*" := Scenario.clientX ]}) !! domain = Some srv
       | None =>
           adminSrv
             (openedWith ["openid"; "profile"; "email"] "/etc/dex/sa.json"
                {[ "*" := "admin@example.com" ]}
                {[ "*" := Scenario.clientX ]}) !! domain = None
       end)
  ∧ (createsClients (configWith [] "/etc/dex/sa.json" "admin@example.com" ∅)
     = false →
     adminSrv
       (openedWith ["openid"; "profile"; "email"] "/etc/dex/sa.json"
          {[ "*" := "admin@example.com" ]} {[ "*" := Scenario.clientX ]})
     = ∅).
Proof.
  apply (Open_routes_follow_configuration platformX map_to_list
           (configWith [] "/etc/dex/sa.json" "admin@example.com" ∅)).
  - exact map_to_list_fair.
  - vm_compute. reflexivity.
Defined.

(** X15. Every directory client of a connector that [Open] returns was
    built for a domain of the admin map, from the credentials of the
    configured file, or from the default credentials when no file is
    configured, parsed for the read-only groups scope, and it impersonates
    the admin of its domain, when that admin is not empty. *)
Theorem Open_clients_impersonate
    (p : Platform) (order : gmap string string → list (string * string))
    (c : Config) (conn : googleConnector) (domain : string)
    (srv : admin.Service) :
  fairOrder order →
  (Open p order c).2 = inr conn →
  adminSrv conn !! domain = Some srv →
  ∃ adminEmail json config,
    DomainToAdminEmail (migrate c) !! domain = Some adminEmail
    ∧ (if String.eqb (ServiceAccountFilePath c) "" then
         FindDefaultCredentials p = Ok json
       else ReadFile p (ServiceAccountFilePath c) = Ok json)
    ∧ JWTConfigFromJSON p json AdminDirectoryGroupReadonlyScope = Ok config
    ∧ NewService p
        (if String.eqb adminEmail "" then config
         else {| jwt.Subject := adminEmail; jwt.Scopes := jwt.Scopes config;
                 jwt.Key := jwt.Key config |}) = Ok srv.
Proof.
  intros Hfair Hopen Hsrv.
  destruct (createsClients c) eqn:Hcreates.
  - pose proof (Open_routes _ _ _ _ Hfair Hopen Hcreates domain) as Hroute.
    destruct (DomainToAdminEmail (migrate c) !! domain) as [adminEmail|];
      [|congruence].
    destruct Hroute as (srv' & Hcreate & Hsrv'). simplify_eq.
    apply createDirectoryService_inv in Hcreate
      as (json & config & ? & ? & ?).
    by exists adminEmail, json, config.
  - apply Open_success_inv in Hopen as (? & _ & _ & Hbuilt & _).
    rewrite Hcreates in Hbuilt. rewrite Hbuilt in Hsrv. done.
Qed.

Lemma Open_clients_impersonate_witness :
  ∃ adminEmail json config,
    DomainToAdminEmail
      (migrate (configWith [] "/etc/dex/sa.json" "admin@example.com" ∅))
    !! "*" = Some adminEmail
    ∧ (if String.eqb
            (ServiceAccountFilePath
               (configWith [] "/etc/dex/sa.json" "admin@example.com" ∅)) ""
       then FindDefaultCredentials platformX = Ok json
       else ReadFile platformX
              (ServiceAccountFilePath
                 (configWith [] "/etc/dex/sa.json" "admin@example.com" ∅))
            = Ok json)
    ∧ JWTConfigFromJSON platformX json AdminDirectoryGroupReadonlyScope
      = Ok config
    ∧ NewService platformX
        (if String.eqb adminEmail "" then config
         else {| jwt.Subject := adminEmail; jwt.Scopes := jwt.Scopes config;
                 jwt.Key := jwt.Key config |}) = Ok Scenario.clientX.
Proof.
  apply (Open_clients_impersonate platformX map_to_list
           (configWith [] "/etc/dex/sa.json" "admin@example.com" ∅)
           (openedWith ["openid"; "profile"; "email"] "/etc/dex/sa.json"
              {[ "*" := "admin@example.com" ]} {[ "*" := Scenario.clientX ]})
           "*" Scenario.clientX).
  - exact map_to_list_fair.
  - vm_compute. reflexivity.
  - reflexivity.
Defined.

(** X16. Whether [Open] succeeds does not depend on the order in which the
    admin map is walked: it succeeds exactly when the provider is found, it
    is not the case that a credentials file is configured while the admin
    map is empty, and, when clients are created, a client can be created for
    the admin of every domain of the map. *)
Theorem Open_succeeds_iff
    (p : Platform) (order : gmap string string → list (string * string))
    (c : Config) :
  fairOrder order →
  (∃ conn, (Open p order c).2 = inr conn)
  ↔ (∃ provider, NewProvider p issuerURL = Ok provider)
    ∧ ¬ (DomainToAdminEmail (migrate c) = ∅
         ∧ ServiceAccountFilePath c ≠ "")
    ∧ (createsClients c = true →
       ∀ domain adminEmail,
         DomainToAdminEmail (migrate c) !! domain = Some adminEmail →
         ∃ srv,
           createDirectoryService p (ServiceAccountFilePath c) adminEmail
           = inr srv).
Proof.
  intros Hfair. split.
  - intros [conn Hopen].
    pose proof (Open_success_inv _ _ _ _ Hopen)
      as (provider & Hp & Hreq & _).
    split_and!; [by exists provider| |].
    + intros [Hempty Hpath]. rewrite Hempty in Hreq.
      apply String.eqb_neq in Hpath. by rewrite Hpath in Hreq.
    + intros Hcreates domain adminEmail Hlook.
      pose proof (Open_routes _ _ _ _ Hfair Hopen Hcreates domain) as Hroute.
      rewrite Hlook in Hroute. destruct Hroute as (srv & ? & _).
      by exists srv.
  - intros ([provider Hp] & Hreq & Hall).
    unfold Open. fold (migrate c).
    destruct (migrate_fields c) as (Hpath & Hscopes & _).
    rewrite Hp, Hpath, Hscopes.
    destruct (_ && negb _) eqn:Ereq.
    { apply andb_true_iff in Ereq as [Hsize Hne]. destruct Hreq. split.
      - apply map_size_empty_iff. by apply Nat.eqb_eq.
      - apply negb_true_iff, String.eqb_neq in Hne. done. }
    assert ((if (0 <? List.length (Scopes c))%nat
             then [ScopeOpenID] ++ Scopes c
             else [ScopeOpenID] ++ ["profile"; "email"])
            = requestedScopes c) as ->
      by (unfold requestedScopes; by destruct (0 <? _)%nat).
    fold (createsClients c).
    destruct (createsClients c) eqn:Hcreates; [|by eexists].
    destruct (rangeDomainToAdminEmail_total p (ServiceAccountFilePath c)
                (order (DomainToAdminEmail (migrate c))) ∅) as [res ->];
      [|by eexists].
    intros d e Hde. eapply Hall; [done|]. by apply (fairOrder_lookup order).
Qed.

Lemma Open_succeeds_iff_witness :
  (∃ conn,
     (Open platformX map_to_list
        (configWith [] "/etc/dex/sa.json" "admin@example.com" ∅)).2
     = inr conn)
  ↔ (∃ provider, NewProvider platformX issuerURL = Ok provider)
    ∧ ¬ (DomainToAdminEmail
           (migrate (configWith [] "/etc/dex/sa.json" "admin@example.com" ∅))
         = ∅
         ∧ ServiceAccountFilePath
             (configWith [] "/etc/dex/sa.json" "admin@example.com" ∅) ≠ "")
    ∧ (createsClients (configWith [] "/etc/dex/sa.json" "admin@example.com" ∅)
       = true →
       ∀ domain adminEmail,
         DomainToAdminEmail
           (migrate (configWith [] "/etc/dex/sa.json" "admin@example.com" ∅))
         !! domain = Some adminEmail →
         ∃ srv,
           createDirectoryService platformX
             (ServiceAccountFilePath
                (configWith [] "/etc/dex/sa.json" "admin@example.com" ∅))
             adminEmail = inr srv).
Proof.
  apply (Open_succeeds_iff platformX map_to_list
           (configWith [] "/etc/dex/sa.json" "admin@example.com" ∅)).
  exact map_to_list_fair.
Defined.

(** X17. With the deprecated admin email configured, and clients being
    created, the connector that [Open] returns has a client for the
    wildcard domain, the one created for that admin; so its group resolution
    never fails for want of a route: every error it returns is the failure
    of a listing. *)
Theorem Open_admin_email_routes_every_domain
    (p : Platform) (order : gmap string string → list (string * string))
    (c : Config) (conn : googleConnector) :
  AdminEmail c ≠ "" →
  fairOrder order →
  (Open p order c).2 = inr conn →
  createsClients c = true →
  (∃ srv,
     createDirectoryService p (ServiceAccountFilePath c) (AdminEmail c)
     = inr srv
     ∧ adminSrv conn !! "*" = Some srv
     ∧ ∀ domain, ∃ srv', findAdminService conn domain = Ok srv')
  ∧ ∀ fuel email ft w gs err,
      (getGroups fuel conn email ft w).1 = Some (gs, Some err) →
      DirectoryQueryFailed err.
Proof.
  intros Hadmin Hfair Hopen Hcreates.
  pose proof (Open_routes _ _ _ _ Hfair Hopen Hcreates "*") as Hroute.
  assert (DomainToAdminEmail (migrate c) !! "*" = Some (AdminEmail c)) as Hw.
  { unfold migrate. apply String.eqb_neq in Hadmin. rewrite Hadmin. simpl.
    apply lookup_insert_eq. }
  rewrite Hw in Hroute. destruct Hroute as (srv & Hcreate & Hsrv).
  split.
  - exists srv. split_and!; [done..|]. intros domain.
    unfold findAdminService.
    destruct (adminSrv conn !! domain); [by eexists|].
    change wildcardDomainToAdminEmail with "*". rewrite Hsrv. by eexists.
  - intros fuel email ft w gs err.
    destruct (getGroups fuel conn email ft w) as [r w'] eqn:E. simpl.
    intros ->. apply getGroups_error_inv in E as [_ Herr].
    by eapply ResolutionError_routed.
Qed.

Lemma Open_admin_email_routes_every_domain_witness :
  (∃ srv,
     createDirectoryService platformX
       (ServiceAccountFilePath
          (configWith [] "/etc/dex/sa.json" "admin@example.com" ∅))
       (AdminEmail (configWith [] "/etc/dex/sa.json" "admin@example.com" ∅))
     = inr srv
     ∧ adminSrv
         (openedWith ["openid"; "profile"; "email"] "/etc/dex/sa.json"
            {[ "*" := "admin@example.com" ]} {[ "*" := Scenario.clientX ]})
       !! "*" = Some srv
     ∧ ∀ domain,
         ∃ srv',
           findAdminService
             (openedWith ["openid"; "profile"; "email"] "/etc/dex/sa.json"
                {[ "*" := "admin@example.com" ]}
                {[ "*" := Scenario.clientX ]}) domain = Ok srv')
  ∧ ∀ fuel email ft w gs err,
      (getGroups fuel
         (openedWith ["openid"; "profile"; "email"] "/etc/dex/sa.json"
            {[ "*" := "admin@example.com" ]} {[ "*" := Scenario.clientX ]})
         email ft w).1 = Some (gs, Some err) →
      DirectoryQueryFailed err.
Proof.
  apply (Open_admin_email_routes_every_domain platformX map_to_list
           (configWith [] "/etc/dex/sa.json" "admin@example.com" ∅)).
  - discriminate.
  - exact map_to_list_fair.
  - vm_compute. reflexivity.
  - reflexivity.
Defined.

Lemma Contains_requestedScopes c :
  Contains (requestedScopes c) "groups" = Contains (Scopes c) "groups".
Proof.
  unfold requestedScopes. simpl.
  destruct (Scopes c) as [|x l]; reflexivity.
Qed.

(** X18. A connector opened without credentials file and without the
    [groups] scope in the configuration has no directory client, whatever
    the admin map; every identity it assembles with success has no group,
    also when the login requests the groups. *)
Theorem Open_without_groups_scope
    (p : Platform) (order : gmap string string → list (string * string))
    (c : Config) (conn : googleConnector) :
  ServiceAccountFilePath c = "" →
  Contains (Scopes c) "groups" = false →
  (Open p order c).2 = inr conn →
  adminSrv conn = ∅
  ∧ ∀ fuel identity s token log identity',
      (createIdentity fuel conn identity s token log).1
      = Some (identity', None) →
      connector.Groups' identity' = [].
Proof.
  intros Hpath Hscopes Hopen.
  assert (createsClients c = false) as Hcreates.
  { unfold createsClients. by rewrite Hpath, Contains_requestedScopes. }
  apply Open_success_inv in Hopen as (? & _ & _ & Hbuilt & _).
  rewrite Hcreates in Hbuilt. split; [done|].
  intros fuel identity s token log identity'
    (raw & idToken & claims & assigned & _ & _ & _ & _ & Hout & ->)
    %createIdentity_success_inv.
  unfold groupsOutcome in Hout. rewrite Hbuilt in Hout. simpl.
  by rewrite andb_false_r in Hout.
Qed.

Lemma Open_without_groups_scope_witness :
  adminSrv
    (openedWith ["openid"; "profile"; "email"] ""
       {[ "example.com" := "admin@example.com" ]} ∅) = ∅
  ∧ ∀ fuel identity s token log identity',
      (createIdentity fuel
         (openedWith ["openid"; "profile"; "email"] ""
            {[ "example.com" := "admin@example.com" ]} ∅)
         identity s token log).1 = Some (identity', None) →
      connector.Groups' identity' = [].
Proof.
  apply (Open_without_groups_scope platformX map_to_list
           (configWith [] "" "" {[ "example.com" := "admin@example.com" ]})).
  - reflexivity.
  - reflexivity.
  - vm_compute. reflexivity.
Defined.

(** * Extending the payload (lines 393-587)

    [ExtendPayload] logs in to a storage appliance, lists its users and adds
    the name of the user who has the email of the claims to the payload.
    The environment, the HTTP client and the JSON codec are oracles. *)

Module storage.
(** [storage.Claims]: only the [Email] field is read. *)
Record Claims : Type := { Email : string }.
End storage.

Module http.
(** A request made by [http.NewRequest]: its method, its URL, the form
    whose encoding is its body, and its content type. *)
Record Request : Type := {
  Method : string;
  URL : string;
  Form : gmap string (list string);
  ContentType : string
}.

(** A response: its status code, and what [io.ReadAll] gives of its body,
    the bytes read and the error that stopped the reading, if any. *)
Record Response : Type := {
  StatusCode : Z;
  Body : list Byte.byte * option error
}.

Definition StatusOK : Z := 200.
End http.

(** The local types [User], [Data] and [Response] (lines 529-550). *)
Module syno.
Record User : Type := {
  TwoFAStatus : bool;
  Description : string;
  Email : string;
  Expired : string;
  Name : string
}.

Record Data : Type := { Offset : Z; Total : Z; Users : list User }.

Record Error : Type := { Code : Z; Errors : list Z }.

Record Response : Type := {
  ResponseData : Data;
  Success : bool;
  ResponseError : Error
}.

(** [User{}] *)
Definition zero : User :=
  {| TwoFAStatus := false; Description := ""; Email := ""; Expired := "";
     Name := "" |}.

(** [usr == (User{})] *)
Definition isZero (u : User) : bool :=
  negb (TwoFAStatus u) && String.eqb (Description u) ""
  && String.eqb (Email u) "" && String.eqb (Expired u) ""
  && String.eqb (Name u) "".
End syno.

(** A value of a decoded JSON object: a string, or anything else, kept in
    its encoding. *)
Inductive jsonValue : Type :=
| JSONString (s : string)
| JSONOther (encoding : list Byte.byte).

Record Host : Type := {
  (** [os.Getenv] *)
  Getenv : string → string;
  (** [cookiejar.New]: its error, if any *)
  NewJar : option error;
  (** [http.NewRequest(method, url, body)]: its error, if any *)
  NewRequest : string → string → option error;
  (** [client.Do(req)] of the client with its cookie jar, which has made
      the requests [earlier] before *)
  Do : list http.Request → http.Request → result http.Response;
  (** [json.Unmarshal] into a [Response] *)
  UnmarshalResponse : list Byte.byte → result syno.Response;
  (** [json.Unmarshal] into a map of values; a map that is left nil is
      [None] *)
  UnmarshalClaims :
    list Byte.byte → result (option (gmap string jsonValue));
  (** [json.Marshal] of a map of values *)
  MarshalClaims : gmap string jsonValue → result (list Byte.byte)
}.

(** The errors of [ExtendPayload]. *)
Inductive extendError : Type :=
| ErrCookieJar (cause : error)
    (* "failed to create cookie jar: %w" *)
| ErrNotSet (variable : string)
    (* "SYNO_PASSWD not set", "SYNO_USER not set", "SYNO_URL not set" *)
| ErrCreateRequest (cause : error)
    (* "failed to create request: %w" *)
| ErrDoRequest (url : string) (cause : error)
    (* "failed to do request %s: %w" *)
| ErrStatusCode (code : Z) (body : list Byte.byte)
    (* "unexpected status code: %d, body: %v" *)
| ErrReadResponse (cause : error)
    (* "failed to read response: %w" *)
| ErrUnmarshalResponse (cause : error)
    (* "failed to unmarshal response: %w" *)
| ErrNoSuccess (code : Z)
    (* "error: %d" *)
| ErrUserNotFound (email : string)
    (* "could not find user with email %s" *)
| ErrUnmarshalClaims (cause : error)
    (* "failed to unmarshal claims: %w" *)
| ErrMarshalClaims (cause : error).
    (* "failed to marshal claims: %w" *)

(** How [ExtendPayload] ends: it returns, or the assignment to a nil map
    panics. *)
Inductive extended : Type :=
| Returned (payload : list Byte.byte) (err : option extendError)
| Panicked.

(** [form.Add(key, value)] *)
Definition Add (key value : string) (form : gmap string (list string))
  : gmap string (list string) :=
  <[key := default [] (form !! key) ++ [value]]> form.

(** The loop of lines 563-569: [usr] after the loop. *)
Fixpoint searchUser (users : list syno.User) (email : string) : syno.User :=
  match users with
  | [] => syno.zero
  | u :: rest =>
      if String.eqb (syno.Email u) email then u else searchUser rest email
  end.

(** The form of the login request (lines 458-463). *)
Definition loginForm (user passwd : string) : gmap string (list string) :=
  Add "passwd" passwd
    (Add "account" user
       (Add "version" "6" (Add "method" "login" (Add "api" "SYNO.API.Auth" ∅)))).

(** [s] between double quotes. *)
Definition quoted (s : string) : string :=
  String (Ascii.ascii_of_nat 34) (s ++ String (Ascii.ascii_of_nat 34) "")%string.

(** The value of the [additional] field: the JSON list of the four field
    names. *)
Definition additionalFields : string :=
  ("[" ++ quoted "email" ++ "," ++ quoted "description" ++ ","
   ++ quoted "expired" ++ "," ++ quoted "2fa_status" ++ "]")%string.

(** The form of the request for the list of users (lines 481-488). *)
Definition listForm : gmap string (list string) :=
  Add "additional" additionalFields
    (Add "limit" "-1"
       (Add "offset" "0"
          (Add "type" "local"
             (Add "version" "1"
                (Add "method" "list" (Add "api" "SYNO.Core.User" ∅)))))).

(** The request that [ExtendPayload] makes for a form. *)
Definition post (synoApi : string) (form : gmap string (list string))
  : http.Request :=
  {| http.Method := "POST"; http.URL := synoApi; http.Form := form;
     http.ContentType := "application/x-www-form-urlencoded" |}.

(** The first part of [ExtendPayload] (lines 434-560): the login and the
    request for the users, up to the decoded answer.  It gives the error at
    which it stops, or the answer, together with the requests made, the
    first one first. *)
Definition fetchUsers (h : Host)
  : (extendError + syno.Response) * list http.Request :=
  match NewJar h with
  | Some err => (inl (ErrCookieJar err), [])
  | None =>
      let passwd := Getenv h "SYNO_PASSWD" in
      if String.eqb passwd "" then (inl (ErrNotSet "SYNO_PASSWD"), [])
      else
        let user := Getenv h "SYNO_USER" in
        if String.eqb user "" then (inl (ErrNotSet "SYNO_USER"), [])
        else
          let synoUrl := Getenv h "SYNO_URL" in
          if String.eqb synoUrl "" then (inl (ErrNotSet "SYNO_URL"), [])
          else
            let synoApi := (synoUrl ++ "/webapi/entry.cgi")%string in
            match NewRequest h "POST" synoApi with
            | Some err => (inl (ErrCreateRequest err), [])
            | None =>
                let req := post synoApi (loginForm user passwd) in
                match Do h [] req with
                | Err err => (inl (ErrDoRequest synoApi err), [req])
                | Ok resp =>
                    if negb (http.StatusCode resp =? http.StatusOK)%Z then
                      (inl (ErrStatusCode (http.StatusCode resp)
                              (http.Body resp).1), [req])
                    else
                      match NewRequest h "POST" synoApi with
                      | Some err => (inl (ErrCreateRequest err), [req])
                      | None =>
                          let req' := post synoApi listForm in
                          match Do h [req] req' with
                          | Err err =>
                              (inl (ErrDoRequest synoApi err), [req; req'])
                          | Ok resp =>
                              if negb (http.StatusCode resp
                                       =? http.StatusOK)%Z
                              then
                                (inl (ErrStatusCode (http.StatusCode resp)
                                        (http.Body resp).1), [req; req'])
                              else
                                match http.Body resp with
                                | (_, Some err) =>
                                    (inl (ErrReadResponse err), [req; req'])
                                | (bytes, None) =>
                                    match UnmarshalResponse h bytes with
                                    | Err err =>
                                        (inl (ErrUnmarshalResponse err),
                                         [req; req'])
                                    | Ok response =>
                                        if negb (syno.Success response) then
                                          (inl (ErrNoSuccess
                                                  (syno.Code
                                                     (syno.ResponseError
                                                        response))),
                                           [req; req'])
                                        else (inr response, [req; req'])
                                    end
                                end
                          end
                      end
                end
            end
  end.

(** [ExtendPayload] (lines 393-587), with the requests it made. *)
Definition ExtendPayload (h : Host) (scopes : list string)
    (claims : storage.Claims) (payload cdata : list Byte.byte)
    : extended * list http.Request :=
  let email := storage.Email claims in
  match fetchUsers h with
  | (inl err, sent) => (Returned payload (Some err), sent)
  | (inr response, sent) =>
      let usr :=
        searchUser (syno.Users (syno.ResponseData response)) email in
      if syno.isZero usr then
        (Returned payload (Some (ErrUserNotFound email)), sent)
      else
        match UnmarshalClaims h payload with
        | Err err => (Returned payload (Some (ErrUnmarshalClaims err)), sent)
        | Ok None => (Panicked, sent)
        | Ok (Some originalClaims) =>
            let originalClaims :=
              <["username" := JSONString (syno.Name usr)]> originalClaims in
            match MarshalClaims h originalClaims with
            | Err err =>
                (Returned payload (Some (ErrMarshalClaims err)), sent)
            | Ok extendedPayload => (Returned extendedPayload None, sent)
            end
        end
  end.

(** ** Scenarios of the extension *)

Definition aliceUser : syno.User :=
  {| syno.TwoFAStatus := false; syno.Description := "Alice";
     syno.Email := "alice@example.com"; syno.Expired := "normal";
     syno.Name := "alice" |}.

Definition bobUser : syno.User :=
  {| syno.TwoFAStatus := true; syno.Description := "Bob";
     syno.Email := "bob@example.com"; syno.Expired := "normal";
     syno.Name := "bob" |}.

(** A second account with the email of alice. *)
Definition aliasUser : syno.User :=
  {| syno.TwoFAStatus := false; syno.Description := "Alice again";
     syno.Email := "alice@example.com"; syno.Expired := "normal";
     syno.Name := "alice2" |}.

(** An appliance that answers 200 to both requests and lists bob, alice and
    the second account of alice; a codec for which the payload [p] is the
    object with the one field [sub] and which encodes every object as
    [q]. *)
Definition hostX : Host :=
  {| Getenv := λ name,
       if String.eqb name "SYNO_PASSWD" then "hunter2"
       else if String.eqb name "SYNO_USER" then "dex"
       else if String.eqb name "SYNO_URL" then "https://nas.example.com"
       else "";
     NewJar := None;
     NewRequest := λ _ _, None;
     Do := λ _ _,
       Ok {| http.StatusCode := 200;
             http.Body := (list_byte_of_string "users", None) |};
     UnmarshalResponse := λ _,
       Ok {| syno.ResponseData :=
               {| syno.Offset := 0; syno.Total := 3;
                  syno.Users := [bobUser; aliceUser; aliasUser] |};
             syno.Success := true;
             syno.ResponseError := {| syno.Code := 0; syno.Errors := [] |} |};
     UnmarshalClaims := λ payload,
       if String.eqb (string_of_list_byte payload) "p" then
         Ok (Some {[ "sub" := JSONString "alice-subject" ]})
       else Ok None;
     MarshalClaims := λ _, Ok (list_byte_of_string "q") |}.

(** The same host without the password in its environment. *)
Definition hostNoPassword : Host :=
  {| Getenv := λ name,
       if String.eqb name "SYNO_PASSWD" then "" else Getenv hostX name;
     NewJar := NewJar hostX; NewRequest := NewRequest hostX; Do := Do hostX;
     UnmarshalResponse := UnmarshalResponse hostX;
     UnmarshalClaims := UnmarshalClaims hostX;
     MarshalClaims := MarshalClaims hostX |}.

Example ExtendPayload_alice :
  (ExtendPayload hostX [] {| storage.Email := "alice@example.com" |}
     (list_byte_of_string "p") []).1
  = Returned (list_byte_of_string "q") None.
Proof. vm_compute. reflexivity. Qed.

(** ** Properties of the extension *)

(** The address of the appliance's API, and the two requests. *)
Definition synoApiOf (h : Host) : string :=
  (Getenv h "SYNO_URL" ++ "/webapi/entry.cgi")%string.

Definition loginRequest (h : Host) : http.Request :=
  post (synoApiOf h) (loginForm (Getenv h "SYNO_USER") (Getenv h "SYNO_PASSWD")).

Definition listRequest (h : Host) : http.Request :=
  post (synoApiOf h) listForm.

(** The environment has the three variables. *)
Definition configured (h : Host) : Prop :=
  Getenv h "SYNO_PASSWD" ≠ "" ∧ Getenv h "SYNO_USER" ≠ ""
  ∧ Getenv h "SYNO_URL" ≠ "".

(** The appliance answered the request for the users with [response]. *)
Definition answered (h : Host) (response : syno.Response) : Prop :=
  ∃ resp bytes,
    Do h [loginRequest h] (listRequest h) = Ok resp
    ∧ http.StatusCode resp = http.StatusOK
    ∧ http.Body resp = (bytes, None)
    ∧ UnmarshalResponse h bytes = Ok response
    ∧ syno.Success response = true.

Lemma fetchUsers_inv h r sent :
  fetchUsers h = (r, sent) →
  (sent = [] ∨ sent = [loginRequest h]
   ∨ sent = [loginRequest h; listRequest h])
  ∧ (sent ≠ [] → NewJar h = None ∧ configured h)
  ∧ (sent = [loginRequest h; listRequest h] →
     ∃ resp, Do h [] (loginRequest h) = Ok resp
             ∧ http.StatusCode resp = http.StatusOK)
  ∧ (∀ response, r = inr response →
       sent = [loginRequest h; listRequest h] ∧ answered h response).
Proof.
  unfold fetchUsers, answered, configured.
  fold (synoApiOf h). fold (loginRequest h). fold (listRequest h).
  destruct (NewJar h) as [?|] eqn:Ej;
    [intros ?; simplify_eq; split_and!; [by auto|done..]|].
  destruct (String.eqb (Getenv h "SYNO_PASSWD") "") eqn:E1;
    [intros ?; simplify_eq; split_and!; [by auto|done..]|].
  destruct (String.eqb (Getenv h "SYNO_USER") "") eqn:E2;
    [intros ?; simplify_eq; split_and!; [by auto|done..]|].
  destruct (String.eqb (Getenv h "SYNO_URL") "") eqn:E3;
    [intros ?; simplify_eq; split_and!; [by auto|done..]|].
  apply String.eqb_neq in E1, E2, E3.
  destruct (NewRequest h "POST" (synoApiOf h)) as [?|];
    [intros ?; simplify_eq; split_and!; [by auto|done..]|].
  destruct (Do h [] (loginRequest h)) as [resp1|?] eqn:Ed1;
    [|intros ?; simplify_eq; split_and!; [by auto|done..]].
  destruct (http.StatusCode resp1 =? http.StatusOK)%Z eqn:Es1; simpl;
    [|intros ?; simplify_eq; split_and!; [by auto|done..]].
  apply Z.eqb_eq in Es1.
  destruct (Do h [loginRequest h] (listRequest h)) as [resp2|?] eqn:Ed2;
    [|intros ?; simplify_eq; split_and!; [by auto|done|by eauto|done]].
  destruct (http.StatusCode resp2 =? http.StatusOK)%Z eqn:Es2; simpl;
    [|intros ?; simplify_eq; split_and!; [by auto|done|by eauto|done]].
  apply Z.eqb_eq in Es2.
  destruct (http.Body resp2) as [bytes [?|]] eqn:Eb;
    [intros ?; simplify_eq; split_and!; [by auto|done|by eauto|done]|].
  destruct (UnmarshalResponse h bytes) as [response|?] eqn:Eu;
    [|intros ?; simplify_eq; split_and!; [by auto|done|by eauto|done]].
  destruct (syno.Success response) eqn:Esucc; simpl;
    intros ?; simplify_eq; (split_and!; [by auto|done|by eauto|]); [|done].
  intros response' ?. simplify_eq. split; [done|].
  by exists resp2, bytes.
Qed.

Lemma searchUser_spec users email :
  (searchUser users email = syno.zero
   ∧ ∀ u, u ∈ users → syno.Email u ≠ email)
  ∨ (∃ before after,
       users = before ++ searchUser users email :: after
       ∧ syno.Email (searchUser users email) = email
       ∧ ∀ u, u ∈ before → syno.Email u ≠ email).
Proof.
  induction users as [|u users IH]; simpl.
  - left. split; [done|]. by intros ? ?%elem_of_nil.
  - destruct (String.eqb (syno.Email u) email) eqn:E.
    + apply String.eqb_eq in E. right. exists [], users.
      split_and!; [done..|]. by intros ? ?%elem_of_nil.
    + apply String.eqb_neq in E.
      destruct IH as [[Hz Hall]|(before & after & Hu & He & Hb)].
      * left. split; [done|]. by intros x [->|?]%elem_of_cons; auto.
      * right. exists (u :: before), after. split_and!; [|done|].
        -- simpl. by rewrite <-Hu.
        -- by intros x [->|?]%elem_of_cons; auto.
Qed.

Lemma isZero_Email u : syno.isZero u = true → syno.Email u = "".
Proof.
  unfold syno.isZero. intros H.
  repeat (apply andb_true_iff in H as [H ?]).
  by apply String.eqb_eq.
Qed.

(** X19. Whenever [ExtendPayload] returns an error, it returns the payload
    it was given, unchanged. *)
Theorem ExtendPayload_error_keeps_payload
    (h : Host) (scopes : list string) (claims : storage.Claims)
    (payload cdata out : list Byte.byte) (e : extendError) :
  (ExtendPayload h scopes claims payload cdata).1 = Returned out (Some e) →
  out = payload.
Proof.
  unfold ExtendPayload.
  destruct (fetchUsers h) as [[err|response] sent]; simpl;
    [intros ?; by simplify_eq|].
  destruct (syno.isZero _); simpl; [intros ?; by simplify_eq|].
  destruct (UnmarshalClaims h payload) as [[originalClaims|]|?]; simpl;
    [|done|intros ?; by simplify_eq].
  destruct (MarshalClaims h _); simpl; [done|intros ?; by simplify_eq].
Qed.

Lemma ExtendPayload_error_keeps_payload_witness :
  list_byte_of_string "p" = list_byte_of_string "p".
Proof.
  apply (ExtendPayload_error_keeps_payload hostNoPassword []
           {| storage.Email := "alice@example.com" |}
           (list_byte_of_string "p") [] (list_byte_of_string "p")
           (ErrNotSet "SYNO_PASSWD")).
  vm_compute. reflexivity.
Defined.

(** X20. [ExtendPayload] makes at most two requests: first the login, a
    POST of the account and password of the environment to the API of the
    URL of the environment, then the request for the users to the same
    address, whose form has no password.  It makes no request unless the
    three variables of the environment are set, and it asks for the users
    only after the login was answered with status 200. *)
Theorem ExtendPayload_requests
    (h : Host) (scopes : list string) (claims : storage.Claims)
    (payload cdata : list Byte.byte) :
  ((ExtendPayload h scopes claims payload cdata).2 = []
   ∨ (ExtendPayload h scopes claims payload cdata).2 = [loginRequest h]
   ∨ (ExtendPayload h scopes claims payload cdata).2
     = [loginRequest h; listRequest h])
  ∧ ((ExtendPayload h scopes claims payload cdata).2 ≠ [] →
     NewJar h = None ∧ configured h)
  ∧ ((ExtendPayload h scopes claims payload cdata).2
     = [loginRequest h; listRequest h] →
     ∃ resp, Do h [] (loginRequest h) = Ok resp
             ∧ http.StatusCode resp = http.StatusOK)
  ∧ http.Form (listRequest h) !! "passwd" = None.
Proof.
  assert ((ExtendPayload h scopes claims payload cdata).2 = (fetchUsers h).2)
    as ->.
  { unfold ExtendPayload. destruct (fetchUsers h) as [[?|?] ?]; [done|].
    by repeat case_match. }
  destruct (fetchUsers h) as [r sent] eqn:E.
  apply fetchUsers_inv in E as (? & ? & ? & _). simpl.
  split_and!; [done..|]. vm_compute. reflexivity.
Qed.

(** X21. When [ExtendPayload] succeeds, the appliance answered the request
    for the users, the payload decoded to an object, and the result is the
    encoding of that object with the field [username] set to the name of
    the first listed user who has the email of the claims, every other
    field being as it was. *)
Theorem ExtendPayload_success
    (h : Host) (scopes : list string) (claims : storage.Claims)
    (payload cdata out : list Byte.byte) :
  (ExtendPayload h scopes claims payload cdata).1 = Returned out None →
  ∃ response before usr after originalClaims extendedClaims,
    answered h response
    ∧ syno.Users (syno.ResponseData response) = before ++ usr :: after
    ∧ (∀ u, u ∈ before → syno.Email u ≠ storage.Email claims)
    ∧ syno.Email usr = storage.Email claims
    ∧ UnmarshalClaims h payload = Ok (Some originalClaims)
    ∧ MarshalClaims h extendedClaims = Ok out
    ∧ extendedClaims !! "username" = Some (JSONString (syno.Name usr))
    ∧ ∀ key, key ≠ "username" →
             extendedClaims !! key = originalClaims !! key.
Proof.
  unfold ExtendPayload.
  destruct (fetchUsers h) as [[err|response] sent] eqn:E; simpl; [done|].
  apply fetchUsers_inv in E as (_ & _ & _ & Hans).
  destruct (Hans response eq_refl) as [_ Hanswered].
  destruct (syno.isZero _) eqn:Ez; simpl; [done|].
  destruct (UnmarshalClaims h payload) as [[originalClaims|]|?] eqn:Eu;
    simpl; [|done..].
  destruct (MarshalClaims h _) as [extendedPayload|?] eqn:Em; simpl; [|done].
  intros ?. simplify_eq.
  destruct (searchUser_spec (syno.Users (syno.ResponseData response))
              (storage.Email claims))
    as [[Hzero _]|(before & after & Husers & Hemail & Hbefore)].
  { by rewrite Hzero in Ez. }
  eexists response, before, _, after, originalClaims, _.
  split_and!; [done..| |].
  - apply lookup_insert_eq.
  - intros key Hkey. by apply lookup_insert_ne.
Qed.

Lemma ExtendPayload_success_witness :
  ∃ response before usr after originalClaims extendedClaims,
    answered hostX response
    ∧ syno.Users (syno.ResponseData response) = before ++ usr :: after
    ∧ (∀ u, u ∈ before →
            syno.Email u
            ≠ storage.Email {| storage.Email := "alice@example.com" |})
    ∧ syno.Email usr
      = storage.Email {| storage.Email := "alice@example.com" |}
    ∧ UnmarshalClaims hostX (list_byte_of_string "p")
      = Ok (Some originalClaims)
    ∧ MarshalClaims hostX extendedClaims = Ok (list_byte_of_string "q")
    ∧ extendedClaims !! "username" = Some (JSONString (syno.Name usr))
    ∧ ∀ key, key ≠ "username" →
             extendedClaims !! key = originalClaims !! key.
Proof.
  apply (ExtendPayload_success hostX []
           {| storage.Email := "alice@example.com" |}
           (list_byte_of_string "p") [] (list_byte_of_string "q")).
  vm_compute. reflexivity.
Defined.

(** The name added for alice is that of her first account. *)
Example searchUser_first :
  syno.Name (searchUser [bobUser; aliceUser; aliasUser] "alice@example.com")
  = "alice".
Proof. reflexivity. Qed.

(** X22. Once the appliance has answered with a list of users, and for
    claims whose email is not empty: [ExtendPayload] fails with "could not
    find user" exactly when no listed user has that email. *)
Theorem ExtendPayload_user_not_found
    (h : Host) (scopes : list string) (claims : storage.Claims)
    (payload cdata : list Byte.byte) (response : syno.Response) :
  (fetchUsers h).1 = inr response →
  storage.Email claims ≠ "" →
  (ExtendPayload h scopes claims payload cdata).1
  = Returned payload (Some (ErrUserNotFound (storage.Email claims)))
  ↔ ∀ u, u ∈ syno.Users (syno.ResponseData response) →
         syno.Email u ≠ storage.Email claims.
Proof.
  intros Hfetch Hemail. unfold ExtendPayload.
  destruct (fetchUsers h) as [r sent]. simpl in Hfetch. subst r.
  destruct (searchUser_spec (syno.Users (syno.ResponseData response))
              (storage.Email claims))
    as [[Hzero Hnone]|(before & after & Husers & He & Hbefore)].
  - rewrite Hzero. simpl. done.
  - destruct (syno.isZero _) eqn:Ez.
    { apply isZero_Email in Ez. congruence. }
    split.
    + intros H. by repeat case_match.
    + intros Hnone.
      set (usr := searchUser (syno.Users (syno.ResponseData response))
                    (storage.Email claims)) in *.
      destruct (Hnone usr); [|done].
      rewrite Husers. apply elem_of_app. right. left.
Qed.

Lemma ExtendPayload_user_not_found_witness :
  (ExtendPayload hostX [] {| storage.Email := "carol@example.com" |}
     (list_byte_of_string "p") []).1
  = Returned (list_byte_of_string "p")
      (Some (ErrUserNotFound
               (storage.Email {| storage.Email := "carol@example.com" |})))
  ↔ ∀ u,
      u ∈ syno.Users
            (syno.ResponseData
               {| syno.ResponseData :=
                    {| syno.Offset := 0; syno.Total := 3;
                       syno.Users := [bobUser; aliceUser; aliasUser] |};
                  syno.Success := true;
                  syno.ResponseError :=
                    {| syno.Code := 0; syno.Errors := [] |} |}) →
      syno.Email u ≠ storage.Email {| storage.Email := "carol@example.com" |}.
Proof.
  apply (ExtendPayload_user_not_found hostX []
           {| storage.Email := "carol@example.com" |}
           (list_byte_of_string "p") []).
  - vm_compute. reflexivity.
  - discriminate.
Defined.

(** X23. [ExtendPayload] panics only at the assignment of the [username]
    field: when it does, the payload decoded to a nil map, after both
    requests were made, the appliance answered, and a listed user has the
    email of the claims. *)
Theorem ExtendPayload_panics_on_nil_claims
    (h : Host) (scopes : list string) (claims : storage.Claims)
    (payload cdata : list Byte.byte) :
  (ExtendPayload h scopes claims payload cdata).1 = Panicked →
  UnmarshalClaims h payload = Ok None
  ∧ (ExtendPayload h scopes claims payload cdata).2
    = [loginRequest h; listRequest h]
  ∧ ∃ response usr,
      answered h response
      ∧ usr ∈ syno.Users (syno.ResponseData response)
      ∧ syno.Email usr = storage.Email claims.
Proof.
  unfold ExtendPayload.
  destruct (fetchUsers h) as [[err|response] sent] eqn:E; simpl; [done|].
  apply fetchUsers_inv in E as (_ & _ & _ & Hans).
  destruct (Hans response eq_refl) as [-> Hanswered].
  destruct (syno.isZero _) eqn:Ez; simpl; [done|].
  destruct (UnmarshalClaims h payload) as [[originalClaims|]|?] eqn:Eu;
    simpl; [|clear Eu|done].
  - by destruct (MarshalClaims h _).
  - intros _. split_and!; [done..|].
    destruct (searchUser_spec (syno.Users (syno.ResponseData response))
                (storage.Email claims))
      as [[Hzero _]|(before & after & Husers & Hemail & _)].
    { by rewrite Hzero in Ez. }
    set (usr := searchUser (syno.Users (syno.ResponseData response))
                  (storage.Email claims)) in *.
    exists response, usr. split_and!; [done| |done].
    rewrite Husers. apply elem_of_app. right. left.
Qed.

Lemma ExtendPayload_panics_on_nil_claims_witness :
  UnmarshalClaims hostX (list_byte_of_string "null") = Ok None
  ∧ (ExtendPayload hostX [] {| storage.Email := "alice@example.com" |}
       (list_byte_of_string "null") []).2
    = [loginRequest hostX; listRequest hostX]
  ∧ ∃ response usr,
      answered hostX response
      ∧ usr ∈ syno.Users (syno.ResponseData response)
      ∧ syno.Email usr
        = storage.Email {| storage.Email := "alice@example.com" |}.
Proof.
  apply (ExtendPayload_panics_on_nil_claims hostX []
           {| storage.Email := "alice@example.com" |}
           (list_byte_of_string "null") []).
  vm_compute. reflexivity.
Defined.

(** * The message of a provider error *)

Lemma append_length (a b : string) :
  String.length (a ++ b)%string = (String.length a + String.length b)%nat.
Proof. induction a as [|x a IH]; simpl; [done|]. by rewrite IH. Qed.

(** X24. The message of an [oauth2Error] begins with the error code, and it
    is the bare code exactly when the description is empty: a description is
    never dropped. *)
Theorem oauth2Error_Error_keeps_description (err description : string) :
  String.prefix err (oauth2Error_Error err description) = true
  ∧ (oauth2Error_Error err description = err ↔ description = "")
  ∧ (description ≠ "" →
     oauth2Error_Error err description
     = (err ++ ": " ++ description)%string).
Proof.
  unfold oauth2Error_Error.
  assert (∀ a b, String.prefix a (a ++ b)%string = true) as Hprefix.
  { induction a as [|x a IH]; intros b; simpl; [by destruct b|].
    destruct (ascii_dec x x); [apply IH|done]. }
  assert (String.prefix err err = true) as Hrefl.
  { induction err as [|x a IH]; simpl; [done|].
    by destruct (ascii_dec x x). }
  destruct (String.eqb description "") eqn:E.
  - apply String.eqb_eq in E. by split_and!.
  - apply String.eqb_neq in E. split_and!; [apply Hprefix| |done].
    split; [|done]. intros Heq.
    apply (f_equal String.length) in Heq.
    rewrite append_length in Heq. simpl in Heq. lia.
Qed.
